(** * aggregate-images: voxel-wise aggregation of co-registered images

    A shallow embedding of [Applications/src/aggregate-images.cc] (MIRTK) and
    the properties of its normalisation, compositing, dispersion statistics
    and NaN post-pass.

    Modelling conventions.
    - A C++ [double] or [float] is a value of [dbl]: NaN, the two infinities,
      or a finite number carried as a rational.  Every arithmetic operation
      and every conversion rounds its exact result to the format of its C++
      type, binary64 for [double] and binary32 for [float], to nearest with
      ties to even, overflowing to an infinity and passing through the
      subnormal numbers: one rounding per operation, no fused operation and no
      extended precision.  The two zeros are identified, and a division by
      zero takes the zero as [+0].
    - [RealPixel], a typedef of the toolkit, is [float] or [double]; which of
      the two is left open.
    - The [int] parameter [alpha] is a [Z]; the one product the code forms
      from it, [alpha * (alpha - 1)], wraps to 32 bits.  Counts of images and
      voxels, and the ranks computed from them, stay within the [int] range,
      where the conversion to [double] is exact.
    - An [Array<T>] is a [list]; a function that updates its argument in
      place returns the updated array next to its result.
    - [Throw] and [FatalError] are the [Error] results of [result]. *)

From Stdlib Require Import ZArith QArith Qabs Qpower Qround List Bool Lia Lqa.
From Stdlib Require Import Permutation SetoidPermutation.
Import ListNotations.

Local Open Scope Z_scope.

(* ========================================================================= *)
(** ** Floating point values *)
(* ========================================================================= *)

Module Double.

Inductive dbl : Type :=
| NaN
| PInf
| NInf
| Fin (q : Q).

Definition of_int (z : Z) : dbl := Fin (inject_Z z).

Definition zero : dbl := Fin 0.
Definition one : dbl := Fin 1.
Definition inf : dbl := PInf.

Definition IsNaN (x : dbl) : bool :=
  match x with NaN => true | _ => false end.

(** [std::isinf]: either infinity. *)
Definition IsInf (x : dbl) : bool :=
  match x with PInf | NInf => true | _ => false end.

Definition neg (x : dbl) : dbl :=
  match x with
  | NaN => NaN
  | PInf => NInf
  | NInf => PInf
  | Fin q => Fin (- q)
  end.

Definition abs (x : dbl) : dbl :=
  match x with
  | NaN => NaN
  | PInf | NInf => PInf
  | Fin q => Fin (Qabs q)
  end.

(** The C++ comparison operators: every comparison with NaN is false,
    except [!=]. *)
Definition ltb (x y : dbl) : bool :=
  match x, y with
  | NaN, _ | _, NaN => false
  | _, NInf => false
  | NInf, _ => true
  | PInf, _ => false
  | _, PInf => true
  | Fin a, Fin b => match (a ?= b)%Q with Lt => true | _ => false end
  end.

Definition eqb (x y : dbl) : bool :=
  match x, y with
  | PInf, PInf | NInf, NInf => true
  | Fin a, Fin b => Qeq_bool a b
  | _, _ => false
  end.

Definition leb (x y : dbl) : bool := ltb x y || eqb x y.
Definition neqb (x y : dbl) : bool := negb (eqb x y).
Definition geb (x y : dbl) : bool := leb y x.

(** Two values denote the same number (or are both NaN). *)
Definition same (x y : dbl) : Prop :=
  match x, y with
  | NaN, NaN | PInf, PInf | NInf, NInf => True
  | Fin a, Fin b => (a == b)%Q
  | _, _ => False
  end.

(** *** The exact result of an operation *)

Definition exact_add (x y : dbl) : dbl :=
  match x, y with
  | NaN, _ | _, NaN => NaN
  | PInf, NInf | NInf, PInf => NaN
  | PInf, _ | _, PInf => PInf
  | NInf, _ | _, NInf => NInf
  | Fin a, Fin b => Fin (a + b)
  end.

(** An infinity of sign [pos] scaled by the finite factor [b]. *)
Definition inf_times (pos : bool) (b : Q) : dbl :=
  match (b ?= 0)%Q with
  | Eq => NaN
  | Gt => if pos then PInf else NInf
  | Lt => if pos then NInf else PInf
  end.

Definition exact_mul (x y : dbl) : dbl :=
  match x, y with
  | NaN, _ | _, NaN => NaN
  | Fin a, Fin b => Fin (a * b)
  | PInf, PInf | NInf, NInf => PInf
  | PInf, NInf | NInf, PInf => NInf
  | PInf, Fin b | Fin b, PInf => inf_times true b
  | NInf, Fin b | Fin b, NInf => inf_times false b
  end.

(** An infinity of sign [pos] divided by the finite [b]; a zero [b] is [+0]. *)
Definition inf_over (pos : bool) (b : Q) : dbl :=
  match (b ?= 0)%Q with
  | Lt => if pos then NInf else PInf
  | _ => if pos then PInf else NInf
  end.

Definition exact_div (x y : dbl) : dbl :=
  match x, y with
  | NaN, _ | _, NaN => NaN
  | PInf, Fin b => inf_over true b
  | NInf, Fin b => inf_over false b
  | (PInf | NInf), (PInf | NInf) => NaN
  | Fin _, (PInf | NInf) => Fin 0
  | Fin a, Fin b =>
      match (b ?= 0)%Q with
      | Eq => match (a ?= 0)%Q with
              | Eq => NaN
              | Gt => PInf
              | Lt => NInf
              end
      | _ => Fin (a / b)
      end
  end.

(** *** Rounding to a binary format *)

(** A format has [precision] bits of significand; its finite numbers are
    below [2 ^ emax] in magnitude and multiples of [2 ^ emin]. *)
Record format : Type := mkFormat { precision : Z; emax : Z }.

Definition binary32 : format := mkFormat 24 128.
Definition binary64 : format := mkFormat 53 1024.

Definition emin (f : format) : Z := 3 - emax f - precision f.

(** The exponent [e] with [2 ^ e <= a < 2 ^ (e + 1)], for [a > 0]. *)
Definition ilog2 (a : Q) : Z :=
  let e := Z.log2 (Qnum a) - Z.log2 (Zpos (Qden a)) in
  if Qle_bool (2 ^ e) a then e else e - 1.

(** The integer nearest to [m], the even one of two that are equally near. *)
Definition rne (m : Q) : Z :=
  let f := Qfloor m in
  match (m - inject_Z f ?= 1 # 2)%Q with
  | Lt => f
  | Gt => f + 1
  | Eq => if Z.even f then f else f + 1
  end.

(** The exponent of the last place of the numbers of the format around
    [a > 0]. *)
Definition quantum (f : format) (a : Q) : Z :=
  Z.max (ilog2 a - precision f + 1) (emin f).

(** The multiple of the quantum nearest to [a > 0]. *)
Definition nearest (f : format) (a : Q) : Q :=
  let e := quantum f a in
  (inject_Z (rne (a / 2 ^ e)) * 2 ^ e)%Q.

(** The number of the format nearest to [q], in lowest terms, or the
    infinity [q] overflows to. *)
Definition round (f : format) (q : Q) : dbl :=
  match (q ?= 0)%Q with
  | Eq => Fin 0
  | Gt => let v := nearest f q in
          if Qle_bool (2 ^ emax f) v then PInf else Fin (Qred v)
  | Lt => let v := nearest f (- q) in
          if Qle_bool (2 ^ emax f) v then NInf else Fin (Qred (- v))
  end.

(** The conversion of a value to a format: [static_cast], a store into a
    variable of that type, or the rounding that ends an operation. *)
Definition cast (f : format) (x : dbl) : dbl :=
  match x with
  | Fin q => round f q
  | other => other
  end.

(** *** Arithmetic in a format *)

Definition add_in (f : format) (x y : dbl) : dbl := cast f (exact_add x y).
Definition sub_in (f : format) (x y : dbl) : dbl := add_in f x (neg y).
Definition mul_in (f : format) (x y : dbl) : dbl := cast f (exact_mul x y).
Definition div_in (f : format) (x y : dbl) : dbl := cast f (exact_div x y).

(** The arithmetic of [double]. *)
Definition add : dbl -> dbl -> dbl := add_in binary64.
Definition sub (x y : dbl) : dbl := add x (neg y).
Definition mul : dbl -> dbl -> dbl := mul_in binary64.
Definition div : dbl -> dbl -> dbl := div_in binary64.

(** The two floating point types of C++. *)
Inductive floating : Type :=
| c_float
| c_double.

Definition format_of (T : floating) : format :=
  match T with
  | c_float => binary32
  | c_double => binary64
  end.

End Double.
Export Double.

Declare Scope dbl_scope.
Delimit Scope dbl_scope with D.
Bind Scope dbl_scope with dbl.
Infix "+" := add : dbl_scope.
Infix "-" := sub : dbl_scope.
Infix "*" := mul : dbl_scope.
Infix "/" := div : dbl_scope.
Notation "- x" := (neg x) : dbl_scope.
Infix "<?" := ltb : dbl_scope.
Infix "<=?" := leb : dbl_scope.
Infix "=?" := eqb : dbl_scope.
Infix "==" := same : dbl_scope.

(** The [double] constants [1e-6] and [1e-3]. *)
Definition micro : dbl := cast binary64 (Fin (1 # 1000000)).
Definition milli : dbl := cast binary64 (Fin (1 # 1000)).

(* ========================================================================= *)
(** ** Failure *)
(* ========================================================================= *)

Inductive error : Type :=
| ERR_InvalidArgument
| ERR_Fatal.

Inductive result (A : Type) : Type :=
| Ok (a : A)
| Error (e : error).
Arguments Ok {A} a.
Arguments Error {A} e.

Definition bind {A B : Type} (r : result A) (k : A -> result B) : result B :=
  match r with
  | Ok a => k a
  | Error e => Error e
  end.

Notation "'do' x <- r ; k" := (bind r (fun x => k))
  (at level 10, x pattern, r at level 100, k at level 200).

Fixpoint mapM {A B : Type} (f : A -> result B) (l : list A) : result (list B) :=
  match l with
  | [] => Ok []
  | a :: l' => do b <- f a; do bs <- mapM f l'; Ok (b :: bs)
  end.

(* ========================================================================= *)
(** ** Types of the program *)
(* ========================================================================= *)

Inductive NormalizationMode : Type :=
| Normalization_None
| Normalization_Mean
| Normalization_Median
| Normalization_ZScore
| Normalization_UnitRange.

Inductive AggregationMode : Type :=
| AM_Mean
| AM_Median
| AM_StDev
| AM_Gini
| AM_Theil
| AM_EntropyIndex
| AM_Entropy.

Definition InputArray : Type := list dbl.

(** The type of the voxels of the output image. *)
Definition OutputType : format := binary32.

(** A [GenericImage]: the voxel data and, once [PutBackgroundValueAsDouble]
    has been called, the background value.  The program never installs a
    foreground mask, so none is carried. *)
Record Image : Type := mkImage {
  Data : list dbl;
  Background : option dbl
}.

Definition NumberOfVoxels (image : Image) : nat := length (Data image).
Definition Get (image : Image) (vox : nat) : dbl := nth vox (Data image) NaN.

Definition PutBackgroundValueAsDouble (image : Image) (bg : dbl) : Image :=
  mkImage (Data image) (Some bg).

(** Modelled from the spec: [IsBackground] of the image container, missing
    from the sources.  "A voxel is background if its stored value equals the
    background value (exact match, including NaN-as-sentinel semantics)";
    without a background value every voxel is foreground. *)
Definition is_background_value (bg : option dbl) (value : dbl) : bool :=
  match bg with
  | Some b => (value =? b)%D || (IsNaN value && IsNaN b)
  | None => false
  end.

Definition IsBackground (image : Image) (vox : nat) : bool :=
  is_background_value (Background image) (Get image vox).

Definition IsForeground (image : Image) (vox : nat) : bool :=
  negb (IsBackground image vox).

(* ========================================================================= *)
(** ** External collaborators *)
(* ========================================================================= *)

(** What the program takes from the rest of the toolkit and from libm.  None
    of it is in the sources, and the development is parametric in it.  A mask
    of [None] is the unmasked overload of a statistic. *)
Class Library : Type := {
  (** the floating point type behind the typedef [RealPixel] *)
  RealPixel : floating;
  (** tolerance of [fequal] *)
  fequal_tol : Q;
  (** what [MinElement] yields for an array without elements *)
  MinElement_empty : dbl;
  log : dbl -> dbl;
  pow : dbl -> Z -> dbl;
  Mean_Calculate : list dbl -> option (list bool) -> dbl;
  Median_Calculate : list dbl -> option (list bool) -> dbl;
  StDev_Calculate : list dbl -> dbl;
  NormalDistribution_Calculate : list dbl -> list bool -> dbl * dbl;
  Extrema_Calculate : list dbl -> list bool -> dbl * dbl;
  Histogram_Entropy : Z -> bool -> dbl -> dbl -> list dbl -> dbl
}.

(** The type of the voxels of the input images and of the samples. *)
Definition InputType `{L : Library} : format := format_of RealPixel.

(* ========================================================================= *)
(** ** Standard algorithms on arrays *)
(* ========================================================================= *)

(** Modelled from the spec: the array helpers [MinElement], [MinMaxElement],
    [Transform] and [Sort], missing from the sources ("the minimum sample
    value", "sort samples ascending").  They are taken to be the standard
    algorithms: in [std::min_element] and [std::max_element] the first
    element is the candidate, replaced by each later one that compares below
    (above) it. *)
Definition min_element (first : dbl) (rest : list dbl) : dbl :=
  fold_left (fun smallest x => if (x <? smallest)%D then x else smallest)
            rest first.

Definition max_element (first : dbl) (rest : list dbl) : dbl :=
  fold_left (fun largest x => if (largest <? x)%D then x else largest)
            rest first.

Definition MinElement `{L : Library} (values : list dbl) : dbl :=
  match values with
  | [] => MinElement_empty
  | x :: rest => min_element x rest
  end.

(** The program calls [MinMaxElement] on sample arrays only, which hold two
    values or more. *)
Definition MinMaxElement (values : list dbl) : dbl * dbl :=
  match values with
  | [] => (NaN, NaN)
  | x :: rest => (min_element x rest, max_element x rest)
  end.

Definition Transform (values : list dbl) (f : dbl -> dbl) : list dbl :=
  map f values.

(** [Sort]: ascending by [<]. *)
Fixpoint insert (x : dbl) (sorted : list dbl) : list dbl :=
  match sorted with
  | [] => [x]
  | y :: rest => if (x <? y)%D then x :: sorted else y :: insert x rest
  end.

Definition Sort (values : list dbl) : list dbl :=
  fold_right insert [] values.

(** Modelled from the spec: [fequal], missing from the sources ("equality-to-
    zero tests use a tolerance-based comparison, not exact floating
    equality"). *)
Definition fequal `{L : Library} (a b : dbl) : bool :=
  (abs (a - b) <? Fin fequal_tol)%D.

(** The 32-bit wrap-around of an [int] result. *)
Definition wrap32 (z : Z) : Z :=
  (z + 2147483648) mod 4294967296 - 2147483648.

(* ========================================================================= *)
(** ** Measures of dispersion *)
(* ========================================================================= *)

Section Dispersion.
Context `{L : Library}.

(** "Shift values to be all positive", for a floating point [T]: the
    subtractions are those of [T]. *)
Definition ShiftToPositive (samples : InputArray) : InputArray :=
  let shift := MinElement samples in
  if (shift <=? zero)%D then
    let shift := sub_in InputType shift (cast InputType micro) in
    Transform samples (fun x => sub_in InputType x shift)
  else samples.

(** The loop of [GiniCoefficient] from rank [i] on. *)
Fixpoint gini_sums (n i : Z) (samples : InputArray) (sum1 sum2 : dbl)
  : dbl * dbl :=
  match samples with
  | [] => (sum1, sum2)
  | x :: rest =>
      gini_sums n (i + 1) rest
                (sum1 + of_int (2 * i - n + 1) * x)%D (sum2 + x)%D
  end.

Definition GiniCoefficient (samples : InputArray) : dbl * InputArray :=
  let n := Z.of_nat (length samples) in
  let samples := ShiftToPositive samples in
  let samples := Sort samples in
  let '(sum1, sum2) := gini_sums n 0 samples zero zero in
  ((sum1 / (of_int n * sum2))%D, samples).

Definition sum_of (f : dbl -> dbl -> dbl) (samples : InputArray) : dbl :=
  fold_left f samples zero.

(** The [switch (alpha)] of [EntropyIndex].  The square of a sample is a
    product of two values of [T], taken in [T]. *)
Definition entropy_sum (alpha n : Z) (mean : dbl) (samples : InputArray)
  : dbl :=
  match alpha with
  | 0 => sum_of (fun sum x => let p := x / mean in sum - log p)%D samples
  | 1 => sum_of (fun sum x => let p := x / mean in sum + p * log p)%D samples
  | 2 => let sum :=
           sum_of (fun sum x => sum + mul_in InputType x x)%D samples in
         let sum := (sum / (mean * mean))%D in
         let sum := (sum - of_int n)%D in
         (sum / of_int 2)%D
  | _ => let sum :=
           sum_of (fun sum x => let p := x / mean in sum + pow p alpha)%D
                  samples in
         let sum := (sum - of_int n)%D in
         (sum / of_int (wrap32 (alpha * (alpha - 1))))%D
  end.

Definition EntropyIndex (samples : InputArray) (alpha : Z)
  : result (dbl * InputArray) :=
  if alpha <? 0 then Error ERR_InvalidArgument
  else
    let n := Z.of_nat (length samples) in
    if n =? 0 then Ok (zero, samples)
    else
      let samples := ShiftToPositive samples in
      let mean := (sum_of (fun mean x => mean + x) samples / of_int n)%D in
      let sum := entropy_sum alpha n mean samples in
      Ok ((sum / of_int n)%D, samples).

End Dispersion.

(* ========================================================================= *)
(** ** The program *)
(* ========================================================================= *)

Section Program.
Context `{L : Library}.

(** The voxel loop [for (vox = 0; vox < nvox; ++vox)] writing one value per
    voxel. *)
Definition for_each_voxel (nvox : nat) (f : nat -> dbl) : list dbl :=
  map f (seq 0 nvox).

Definition ForegroundMaskArray (image : Image) : list bool :=
  map (fun i => negb (IsNaN (Get image i)) && IsForeground image i)
      (seq 0 (NumberOfVoxels image)).

(** The [Normalization_ZScore] case, from the two moments on. *)
Definition ZScoreParameters (mean sigma : dbl) : dbl * dbl :=
  if fequal sigma zero then ((one / sigma)%D, (- mean / sigma)%D)
  else (one, (- mean)%D).

(** The scale [s] and offset [t] the [switch] of [Normalize] arrives at. *)
Definition NormalizationParameters (mode : NormalizationMode)
    (data : list dbl) (mask : list bool) : dbl * dbl :=
  match mode with
  | Normalization_None => (one, zero)
  | Normalization_Mean =>
      let mean := Mean_Calculate data (Some mask) in
      if negb (fequal mean zero) then ((one / mean)%D, zero) else (one, zero)
  | Normalization_Median =>
      let median := Median_Calculate data (Some mask) in
      if negb (fequal median zero) then ((one / median)%D, zero)
      else (one, zero)
  | Normalization_ZScore =>
      let '(mean, sigma) := NormalDistribution_Calculate data mask in
      ZScoreParameters mean sigma
  | Normalization_UnitRange =>
      let '(min_value, max_value) := Extrema_Calculate data mask in
      let range := (max_value - min_value)%D in
      if negb (fequal range zero) then
        ((one / range)%D, (- min_value / range)%D)
      else (one, (- min_value)%D)
  end.

(** The new value, [s] times the old plus [t], is computed in [double] and
    stored as a [RealPixel]. *)
Definition Normalize (image : Image) (mode : NormalizationMode) : Image :=
  match mode with
  | Normalization_None => image
  | _ =>
      let mask := ForegroundMaskArray image in
      let data := Data image in
      let '(s, t) := NormalizationParameters mode data mask in
      if neqb s one || neqb t zero then
        mkImage (for_each_voxel (NumberOfVoxels image)
                   (fun i => if nth i mask false
                             then cast InputType (s * Get image i + t)%D
                             else Get image i))
                (Background image)
      else image
  end.

(** Modelled from the spec: [Read] of the image container ("Volume load(path)
    -> Volume").  An [InputImage] is a [GenericImage<InputType>]: the voxels
    of the file, whatever their type there, become values of [RealPixel]. *)
Definition Read (file : Image) : Image :=
  mkImage (map (cast InputType) (Data file)) (Background file).

(** "Replace background values by NaN", for one image. *)
Definition ReplacePadding (padding : dbl) (nvox : nat) (image : Image)
  : Image :=
  let image :=
    if negb (IsNaN padding) then
      mkImage (for_each_voxel nvox
                 (fun vox => if (Get image vox =? padding)%D then NaN
                             else Get image vox))
              (Background image)
    else image in
  PutBackgroundValueAsDouble image NaN.

Definition foreground_values (image : Image) : list dbl :=
  map (Get image)
      (filter (IsForeground image) (seq 0 (NumberOfVoxels image))).

(** Modelled from the spec: [GetMinMax]/[GetMinMaxAsDouble] of the image
    container ("Volume.minMax() -> (min, max)"), missing from the sources:
    the extrema of the foreground voxels, found by comparing each one against
    the running extrema.  These start at [+inf] and [-inf], so that an image
    without foreground reports the minimum [+inf]: the program "fails ... if
    every voxel is background given the padding value", which it finds out
    from a minimum that is infinite. *)
Definition GetMinMax (image : Image) : dbl * dbl :=
  let values := foreground_values image in
  (min_element PInf values, max_element NInf values).

Definition is_dispersion (mode : AggregationMode) : bool :=
  match mode with
  | AM_Gini | AM_Theil | AM_EntropyIndex => true
  | _ => false
  end.

(** The smallest [vmin] over the images, starting from [inf]. *)
Definition minimum_over (images : list Image) : dbl :=
  fold_left (fun min_value image =>
               let '(vmin, _) := GetMinMax image in
               if (vmin <? min_value)%D then vmin else min_value)
            images inf.

(** "Ensure all (normalized) intensities are positive".  The difference is
    taken in [double] and stored as a [RealPixel]. *)
Definition MakePositive (nvox : nat) (images : list Image)
  : result (list Image) :=
  let min_value := minimum_over images in
  if IsInf min_value then Error ERR_Fatal
  else
    let min_value := (min_value - one)%D in
    Ok (map (fun image =>
               PutBackgroundValueAsDouble
                 (mkImage (for_each_voxel nvox
                             (fun vox =>
                                if IsForeground image vox
                                then cast InputType
                                          (Get image vox - min_value)%D
                                else zero))
                          (Background image))
                 zero)
            images).

(** The input images once they are read, the padding value is replaced and
    the intensities are normalised. *)
Definition NormalizeImages (normalization : NormalizationMode)
    (padding : dbl) (nvox : nat) (inputs : list Image) : list Image :=
  let images := map (ReplacePadding padding nvox) (map Read inputs) in
  match normalization with
  | Normalization_None => images
  | _ => map (fun image => Normalize image normalization) images
  end.

(** The input images as the aggregation finds them: for the dispersion modes
    they are made positive as well. *)
Definition PrepareImages (mode : AggregationMode)
    (normalization : NormalizationMode) (padding : dbl) (nvox : nat)
    (inputs : list Image) : result (list Image) :=
  let images := NormalizeImages normalization padding nvox inputs in
  if is_dispersion mode then MakePositive nvox images else Ok images.

(** Modelled from the spec: [bg] as the output image holds it.  The image
    container, missing from the sources, is taken to keep its background
    value in the type of its voxels, so that a voxel assigned the background
    value is background ("if the output voxel is marked background, skip"). *)
Definition OutputBackground (mode : AggregationMode) : dbl :=
  match mode with AM_Mean => NaN | _ => cast OutputType milli end.

(** "Initialize output image".  The image starts out zero-filled; the spec has
    every voxel attempted when no padding value is given. *)
Definition InitializeOutput (mode : AggregationMode) (padding : dbl)
    (intersection : bool) (nvox : nat) (images : list Image) : Image :=
  let bg := OutputBackground mode in
  let output := mkImage (repeat zero nvox) None in
  let output :=
    if negb (IsNaN padding) then
      if intersection then
        mkImage (for_each_voxel nvox
                   (fun vox =>
                      if existsb (fun image => IsBackground image vox) images
                      then bg else zero))
                None
      else
        mkImage (for_each_voxel nvox
                   (fun vox =>
                      if existsb (fun image => IsForeground image vox) images
                      then zero else bg))
                None
    else output in
  PutBackgroundValueAsDouble output bg.

(** The [eval._Function] installed for each mode; each returns an
    [OutputType]. *)
Definition AggregationFunction (mode : AggregationMode) (alpha bins : Z)
    (parzen : bool) (values : InputArray) : result dbl :=
  match mode with
  | AM_Mean => Ok (cast OutputType (Mean_Calculate values None))
  | AM_Median => Ok (cast OutputType (Median_Calculate values None))
  | AM_StDev => Ok (cast OutputType (StDev_Calculate values))
  | AM_Gini => Ok (cast OutputType (fst (GiniCoefficient values)))
  | AM_Theil => do r <- EntropyIndex values 1; Ok (cast OutputType (fst r))
  | AM_EntropyIndex =>
      do r <- EntropyIndex values alpha; Ok (cast OutputType (fst r))
  | AM_Entropy =>
      let minmax := MinMaxElement values in
      if geb (fst minmax) (snd minmax) then Ok zero
      else Ok (cast OutputType
                 (Histogram_Entropy bins parzen (fst minmax) (snd minmax)
                                    values))
  end.

(** The sample array of one voxel: [values[i]] is [Get(vox)] of image [i]. *)
Definition Values (images : list Image) (vox : nat) : InputArray :=
  map (fun image => Get image vox) images.

(** [AggregateValuesAtEachVoxel] over the range [0, nvox).  No voxel reads
    what another one writes, so the order of the parallel loop is immaterial;
    the scratch array is refilled for every voxel. *)
Definition AggregateValuesAtEachVoxel (Function : InputArray -> result dbl)
    (images : list Image) (output : Image) (nvox : nat) : result Image :=
  do data <- mapM (fun vox => if IsForeground output vox
                              then Function (Values images vox)
                              else Ok (Get output vox))
                  (seq 0 nvox);
  Ok (mkImage data (Background output)).

(** "Replace NaN's by minimum value": [omin -= 1e-3] subtracts in [double]
    and stores an [OutputType]. *)
Definition ReplaceNaNs (output : Image) (nvox : nat) : Image :=
  let '(omin, _) := GetMinMax output in
  let omin := cast OutputType (omin - milli)%D in
  mkImage (for_each_voxel nvox
             (fun vox => if IsNaN (Get output vox) then omin
                         else Get output vox))
          (Background output).

(** The output image before the NaN post-pass. *)
Definition Aggregate (mode : AggregationMode)
    (normalization : NormalizationMode) (alpha bins : Z) (parzen : bool)
    (padding : dbl) (intersection : bool) (nvox : nat) (inputs : list Image)
  : result Image :=
  do images <- PrepareImages mode normalization padding nvox inputs;
  let output := InitializeOutput mode padding intersection nvox images in
  AggregateValuesAtEachVoxel (AggregationFunction mode alpha bins parzen)
                             images output nvox.

(** [main], from the image files to the image written.  At least two images
    are required, and all must agree with the first (of the attributes only
    the number of voxels is modelled). *)
Definition main (mode : AggregationMode) (normalization : NormalizationMode)
    (alpha bins : Z) (parzen : bool) (padding : dbl) (intersection : bool)
    (inputs : list Image) : result Image :=
  match inputs with
  | [] | [_] => Error ERR_Fatal
  | first :: _ =>
      let nvox := NumberOfVoxels first in
      if forallb (fun image => Nat.eqb (NumberOfVoxels image) nvox) inputs
      then
        do output <- Aggregate mode normalization alpha bins parzen padding
                               intersection nvox inputs;
        Ok (ReplaceNaNs output nvox)
      else Error ERR_Fatal
  end.

End Program.

(* ========================================================================= *)
(** ** A library to run examples with *)
(* ========================================================================= *)

(** A stand-in for the collaborators, with which the program can be
    evaluated on concrete images: [RealPixel] is [double]; mean, median and
    extrema are computed in [double]; the square root is taken to six
    decimals, the logarithm is a truncated series, the power is rounded once,
    and the histogram is not smoothed.  Every theorem below is stated for an
    arbitrary [Library]; this one only closes the examples. *)
Module Examples.

Definition select (data : list dbl) (mask : option (list bool)) : list dbl :=
  match mask with
  | None => data
  | Some m => map fst (filter snd (combine data m))
  end.

Definition total (values : list dbl) : dbl := fold_left add values zero.

Definition mean (data : list dbl) (mask : option (list bool)) : dbl :=
  let values := select data mask in
  (total values / of_int (Z.of_nat (length values)))%D.

Definition median (data : list dbl) (mask : option (list bool)) : dbl :=
  let values := Sort (select data mask) in
  nth (length values / 2) values NaN.

Definition sqrt (x : dbl) : dbl :=
  match x with
  | Fin q =>
      if (Qnum q <? 0)%Z then NaN
      else round binary64 (Z.sqrt (Qnum q * Zpos (Qden q) * 10 ^ 12)
                           # (Qden q * 1000000))
  | NInf => NaN
  | other => other
  end.

Definition variance (values : list dbl) : dbl :=
  let m := mean values None in
  (total (map (fun x => (x - m) * (x - m)) values)
   / of_int (Z.of_nat (length values)))%D.

Definition stdev (values : list dbl) : dbl := sqrt (variance values).

Definition normal (data : list dbl) (mask : list bool) : dbl * dbl :=
  let values := select data (Some mask) in
  (mean values None, stdev values).

Definition extrema (data : list dbl) (mask : list bool) : dbl * dbl :=
  MinMaxElement (select data (Some mask)).

Definition ln (x : dbl) : dbl :=
  match x with
  | Fin q =>
      match (q ?= 0)%Q with
      | Lt => NaN
      | Eq => NInf
      | Gt => let z := ((q - 1) / (q + 1))%Q in
              round binary64 (2 * (z + z ^ 3 / 3 + z ^ 5 / 5 + z ^ 7 / 7))%Q
      end
  | NInf => NaN
  | other => other
  end.

Definition power (x : dbl) (k : Z) : dbl :=
  match x with
  | NaN => NaN
  | PInf => PInf
  | NInf => if Z.even k then PInf else NInf
  | Fin q => round binary64 (q ^ k)
  end.

Definition bin_of (bins : Z) (lo hi x : dbl) : Z :=
  match ((x - lo) / (hi - lo) * of_int bins)%D with
  | Fin q => Z.min (bins - 1) (Z.max 0 (Qfloor q))
  | _ => 0
  end.

Definition entropy (bins : Z) (parzen : bool) (lo hi : dbl)
    (values : list dbl) : dbl :=
  let n := of_int (Z.of_nat (length values)) in
  let count b :=
    of_int (Z.of_nat (length (filter (fun x => bin_of bins lo hi x =? b)
                                     values))) in
  fold_left (fun h b => let p := (count (Z.of_nat b) / n)%D in
                        if (p =? zero)%D then h else (h - p * ln p)%D)
            (seq 0 (Z.to_nat bins)) zero.

#[export] Instance library : Library := {|
  RealPixel := c_double;
  fequal_tol := 1 # 1000000000000;
  MinElement_empty := NaN;
  log := ln;
  pow := power;
  Mean_Calculate := mean;
  Median_Calculate := median;
  StDev_Calculate := stdev;
  NormalDistribution_Calculate := normal;
  Extrema_Calculate := extrema;
  Histogram_Entropy := entropy
|}.

(** The contents of an image file: no background value set yet. *)
Definition image_of (data : list dbl) : Image := mkImage data None.

End Examples.

(* ========================================================================= *)
(** ** Predicates of the statements *)
(* ========================================================================= *)

(** Every sample is the finite number [v]. *)
Definition all_same (v : Q) (samples : InputArray) : Prop :=
  Forall (fun x => (x == Fin v)%D) samples.

(** [m] is not above [v]: the comparison [v < m] fails. *)
Definition not_above (m v : dbl) : Prop := (v <? m)%D = false.

(** A value that is a number and not an infinity. *)
Definition finite (x : dbl) : Prop := exists q, x = Fin q.

(** The numbers of a format: [m * 2 ^ e] with a significand [m] of
    [precision] bits and an exponent in range. *)
Definition in_format (f : format) (v : Q) : Prop :=
  exists m e : Z,
    (v == inject_Z m * 2 ^ e)%Q /\ Z.abs m <= 2 ^ precision f /\
    emin f <= e /\ (Qabs v < 2 ^ emax f)%Q.

(** The values of a format: its numbers, the infinities and NaN. *)
Definition representable (f : format) (x : dbl) : Prop :=
  match x with
  | Fin v => in_format f v
  | _ => True
  end.

(** A finite value written in lowest terms, as every rounding leaves it. *)
Definition canonical (x : dbl) : Prop :=
  match x with
  | Fin v => Qred v = v
  | _ => True
  end.

(** An image whose voxels are values of the type [T]. *)
Definition typed (T : format) (image : Image) : Prop :=
  Forall (representable T) (Data image).

(** What the shift does to one image, voxel by voxel: a foreground voxel
    comes out as a number that is not negative, a background voxel as 0. *)
Definition shifted (nvox : nat) (before after : Image) : Prop :=
  Background after = Some zero /\
  forall vox, (vox < nvox)%nat ->
    (IsForeground before vox = true ->
     (Get after vox <? zero)%D = false /\
     IsNaN (Get after vox) = false /\
     canonical (Get after vox)) /\
    (IsBackground before vox = true -> Get after vox = zero).

(** Samples that are integers: their sum, their sum weighted by
    [2 * rank - n + 1] from rank [i] on, and their ascending order. *)
Definition sum_Z (zs : list Z) : Z := fold_right Z.add 0 zs.

Fixpoint rank_sum_Z (n i : Z) (zs : list Z) : Z :=
  match zs with
  | [] => 0
  | z :: rest => (2 * i - n + 1) * z + rank_sum_Z n (i + 1) rest
  end.

Fixpoint insert_Z (x : Z) (sorted : list Z) : list Z :=
  match sorted with
  | [] => [x]
  | y :: rest => if x <? y then x :: sorted else y :: insert_Z x rest
  end.

Definition sort_Z (zs : list Z) : list Z := fold_right insert_Z [] zs.

(** Two arrays hold the same numbers, in whatever order. *)
Definition rearranged (samples samples' : InputArray) : Prop :=
  PermutationA same samples samples'.

(* ========================================================================= *)
(** ** Facts about the comparisons *)
(* ========================================================================= *)

Lemma ltb_Fin (a b : Q) : (Fin a <? Fin b)%D = true <-> (a < b)%Q.
Proof.
  simpl. rewrite Qlt_alt. destruct (a ?= b)%Q; split; congruence.
Qed.

Lemma ltb_Fin_false (a b : Q) : (Fin a <? Fin b)%D = false <-> (b <= a)%Q.
Proof.
  rewrite <- Bool.not_true_iff_false, ltb_Fin. split.
  - apply Qnot_lt_le.
  - apply Qle_not_lt.
Qed.

Lemma eqb_Fin (a b : Q) : (Fin a =? Fin b)%D = true <-> (a == b)%Q.
Proof. apply Qeq_bool_iff. Qed.

Lemma leb_Fin (a b : Q) : (Fin a <=? Fin b)%D = true <-> (a <= b)%Q.
Proof.
  unfold leb. rewrite Bool.orb_true_iff, ltb_Fin, eqb_Fin. split.
  - intros [H | H]; [apply Qlt_le_weak, H | rewrite H; apply Qle_refl].
  - intros H. apply Qle_lteq in H. exact H.
Qed.

Lemma leb_Fin_false (a b : Q) : (Fin a <=? Fin b)%D = false <-> (b < a)%Q.
Proof.
  rewrite <- Bool.not_true_iff_false, leb_Fin. split.
  - apply Qnot_le_lt.
  - apply Qlt_not_le.
Qed.

Lemma same_refl (x : dbl) : (x == x)%D.
Proof. destruct x; simpl; auto. reflexivity. Qed.

Lemma same_sym (x y : dbl) : (x == y)%D -> (y == x)%D.
Proof. destruct x, y; simpl; auto. intros H; symmetry; exact H. Qed.

Lemma same_trans (x y z : dbl) : (x == y)%D -> (y == z)%D -> (x == z)%D.
Proof.
  destruct x, y, z; simpl; auto; try contradiction.
  intros H1 H2; rewrite H1; exact H2.
Qed.

Lemma same_Fin (x : dbl) (v : Q) :
  (x == Fin v)%D -> exists q, x = Fin q /\ (q == v)%Q.
Proof.
  destruct x; simpl; try contradiction. intros H; eauto.
Qed.

Lemma ltb_irrefl (x : dbl) : (x <? x)%D = false.
Proof.
  destruct x; try reflexivity. apply ltb_Fin_false. apply Qle_refl.
Qed.

Lemma ltb_asym (x y : dbl) : (x <? y)%D = true -> (y <? x)%D = false.
Proof.
  destruct x, y; simpl; try congruence. intros H.
  apply (proj1 (ltb_Fin q q0)) in H. apply ltb_Fin_false.
  apply Qlt_le_weak. exact H.
Qed.

Lemma ltb_not_NaN (x y : dbl) : (x <? y)%D = true -> IsNaN x = false.
Proof. destruct x, y; simpl; congruence. Qed.

(** The order is transitive through a value that is not NaN. *)
Lemma not_above_trans (a b c : dbl) :
  IsNaN b = false -> not_above a b -> not_above b c -> not_above a c.
Proof.
  unfold not_above.
  destruct a as [| | |a], b as [| | |b], c as [| | |c]; simpl;
    try congruence.
  intros _ Hab Hbc.
  apply (proj1 (ltb_Fin_false b a)) in Hab.
  apply (proj1 (ltb_Fin_false c b)) in Hbc.
  apply (ltb_Fin_false c a). eapply Qle_trans; eassumption.
Qed.

Lemma nth_for_each_voxel (nvox : nat) (f : nat -> dbl) (vox : nat) :
  (vox < nvox)%nat -> nth vox (for_each_voxel nvox f) NaN = f vox.
Proof.
  intros H. unfold for_each_voxel.
  rewrite (nth_indep _ NaN (f 0%nat)) by (rewrite length_map, length_seq; exact H).
  rewrite map_nth, seq_nth by exact H. reflexivity.
Qed.

Lemma length_for_each_voxel (nvox : nat) (f : nat -> dbl) :
  length (for_each_voxel nvox f) = nvox.
Proof. unfold for_each_voxel. rewrite length_map, length_seq. reflexivity. Qed.

(* ========================================================================= *)
(** ** Rounding *)
(* ========================================================================= *)

(** *** Powers of two *)

Lemma pow2_pos (e : Z) : (0 < 2 ^ e)%Q.
Proof. apply Qpower_0_lt. reflexivity. Qed.

Lemma pow2_add (a b : Z) : (2 ^ (a + b) == 2 ^ a * 2 ^ b)%Q.
Proof. apply Qpower_plus. discriminate. Qed.

Lemma pow2_le (a b : Z) : a <= b -> (2 ^ a <= 2 ^ b)%Q.
Proof. intros H. apply Qpower_le_compat_l; [exact H | discriminate]. Qed.

Lemma pow2_lt (a b : Z) : a < b -> (2 ^ a < 2 ^ b)%Q.
Proof. intros H. apply Qpower_lt_compat_l; [exact H | reflexivity]. Qed.

Lemma pow2_Z (e : Z) : 0 <= e -> (2 ^ e == inject_Z (2 ^ e))%Q.
Proof. intros H. rewrite Zpower_Qpower by exact H. reflexivity. Qed.

(** *** The binary logarithm *)

Lemma Qnum_pos (a : Q) : (0 < a)%Q -> 0 < Qnum a.
Proof. destruct a as [n d]. unfold Qlt. simpl. lia. Qed.

Lemma ilog2_spec (a : Q) :
  (0 < a)%Q -> (2 ^ ilog2 a <= a)%Q /\ (a < 2 ^ (ilog2 a + 1))%Q.
Proof.
  intros Ha. unfold ilog2.
  assert (Hn := Qnum_pos a Ha).
  destruct a as [n d]. cbn [Qnum Qden] in *.
  set (ln := Z.log2 n). set (ld := Z.log2 (Z.pos d)).
  destruct (Z.log2_spec n Hn) as [Hn1 Hn2]. fold ln in Hn1, Hn2.
  destruct (Z.log2_spec (Z.pos d) (Pos2Z.is_pos d)) as [Hd1 Hd2].
  fold ld in Hd1, Hd2.
  assert (Hln : 0 <= ln) by apply Z.log2_nonneg.
  assert (Hld : 0 <= ld) by apply Z.log2_nonneg.
  assert (Hq : (n # d == inject_Z n / inject_Z (Z.pos d))%Q)
    by apply Qmake_Qdiv.
  assert (Hdpos : (0 < inject_Z (Z.pos d))%Q) by reflexivity.
  (* the bounds as rationals *)
  assert (Q1 : (2 ^ ln <= inject_Z n)%Q).
  { rewrite pow2_Z by exact Hln. rewrite <- Zle_Qle. exact Hn1. }
  assert (Q2 : (inject_Z n < 2 ^ (ln + 1))%Q).
  { rewrite pow2_Z by lia. rewrite <- Zlt_Qlt. unfold Z.succ in Hn2.
    exact Hn2. }
  assert (Q3 : (2 ^ ld <= inject_Z (Z.pos d))%Q).
  { rewrite pow2_Z by exact Hld. rewrite <- Zle_Qle. exact Hd1. }
  assert (Q4 : (inject_Z (Z.pos d) < 2 ^ (ld + 1))%Q).
  { rewrite pow2_Z by lia. rewrite <- Zlt_Qlt. unfold Z.succ in Hd2.
    exact Hd2. }
  set (e := ln - ld).
  assert (Hup : (n # d < 2 ^ (e + 1))%Q).
  { rewrite Hq. apply Qlt_shift_div_r; [exact Hdpos|].
    apply Qlt_le_trans with (2 ^ (ln + 1))%Q; [exact Q2|].
    replace (ln + 1) with (e + 1 + ld) by (unfold e; ring).
    rewrite (pow2_add (e + 1) ld). apply Qmult_le_l; [apply pow2_pos | exact Q3]. }
  assert (Hlow : (2 ^ (e - 1) < n # d)%Q).
  { rewrite Hq. apply Qlt_shift_div_l; [exact Hdpos|].
    apply Qlt_le_trans with (2 ^ ln)%Q; [|exact Q1].
    assert (P := pow2_add (e - 1) (ld + 1)).
    replace (e - 1 + (ld + 1)) with ln in P by (unfold e; ring).
    rewrite P. apply Qmult_lt_l; [apply pow2_pos | exact Q4]. }
  destruct (Qle_bool (2 ^ e) (n # d)) eqn:E.
  - apply Qle_bool_iff in E. split; assumption.
  - assert (E' : ~ (2 ^ e <= n # d)%Q).
    { intros H. apply Qle_bool_iff in H. congruence. }
    apply Qnot_le_lt in E'. split.
    + apply Qlt_le_weak. exact Hlow.
    + replace (e - 1 + 1) with e by ring. exact E'.
Qed.

Lemma ilog2_unique (a : Q) (e : Z) :
  (2 ^ e <= a)%Q -> (a < 2 ^ (e + 1))%Q -> ilog2 a = e.
Proof.
  intros H1 H2.
  assert (Ha : (0 < a)%Q) by (eapply Qlt_le_trans; [apply pow2_pos | exact H1]).
  destruct (ilog2_spec a Ha) as [S1 S2].
  destruct (Z.lt_trichotomy (ilog2 a) e) as [H | [H | H]]; [|exact H|].
  - exfalso. assert (P := pow2_le (ilog2 a + 1) e ltac:(lia)).
    apply (Qlt_irrefl a). eapply Qlt_le_trans; [exact S2|].
    eapply Qle_trans; eassumption.
  - exfalso. assert (P := pow2_le (e + 1) (ilog2 a) ltac:(lia)).
    apply (Qlt_irrefl a). eapply Qlt_le_trans; [exact H2|].
    eapply Qle_trans; eassumption.
Qed.

Lemma ilog2_comp (a b : Q) : (0 < a)%Q -> (a == b)%Q -> ilog2 a = ilog2 b.
Proof.
  intros Ha E. symmetry. destruct (ilog2_spec a Ha) as [S1 S2].
  apply ilog2_unique; rewrite <- E; assumption.
Qed.

Lemma ilog2_mono (a b : Q) : (0 < a)%Q -> (a <= b)%Q -> ilog2 a <= ilog2 b.
Proof.
  intros Ha Hab.
  assert (Hb : (0 < b)%Q) by (eapply Qlt_le_trans; eassumption).
  destruct (ilog2_spec a Ha) as [A1 A2]. destruct (ilog2_spec b Hb) as [B1 B2].
  destruct (Z.le_gt_cases (ilog2 a) (ilog2 b)) as [H | H]; [exact H|].
  exfalso. assert (P := pow2_le (ilog2 b + 1) (ilog2 a) ltac:(lia)).
  apply (Qlt_irrefl b). eapply Qlt_le_trans; [exact B2|].
  eapply Qle_trans; [exact P|]. eapply Qle_trans; eassumption.
Qed.

(** *** Rounding to an integer *)

Lemma rne_comp (m m' : Q) : (m == m')%Q -> rne m = rne m'.
Proof.
  intros E. unfold rne. rewrite (Qfloor_comp _ _ E).
  assert (C : (m - inject_Z (Qfloor m') ?= 1 # 2)%Q
              = (m' - inject_Z (Qfloor m') ?= 1 # 2)%Q)
    by (rewrite E; reflexivity).
  rewrite C. reflexivity.
Qed.

Lemma rne_bounds (m : Q) : Qfloor m <= rne m <= Qfloor m + 1.
Proof.
  unfold rne. destruct (_ ?= _)%Q; [destruct (Z.even _)| |]; lia.
Qed.

Lemma rne_Z (z : Z) : rne (inject_Z z) = z.
Proof.
  unfold rne. rewrite Qfloor_Z.
  assert (C : (inject_Z z - inject_Z z ?= 1 # 2)%Q = Lt).
  { apply (proj1 (Qlt_alt _ _)). lra. }
  rewrite C. reflexivity.
Qed.

Lemma rne_lower (m : Q) (z : Z) : (inject_Z z <= m)%Q -> z <= rne m.
Proof.
  intros H. apply Qfloor_resp_le in H. rewrite Qfloor_Z in H.
  assert (B := rne_bounds m). lia.
Qed.

Lemma rne_upper (m : Q) (z : Z) : (m <= inject_Z z)%Q -> rne m <= z.
Proof.
  intros H. assert (F := Qfloor_resp_le _ _ H). rewrite Qfloor_Z in F.
  destruct (Z.eq_dec (Qfloor m) z) as [E | E].
  - assert (Hm : (m == inject_Z z)%Q).
    { apply Qle_antisym; [exact H|]. rewrite <- E. apply Qfloor_le. }
    rewrite (rne_comp _ _ Hm), rne_Z. lia.
  - assert (B := rne_bounds m). lia.
Qed.

Lemma rne_mono (m m' : Q) : (m <= m')%Q -> rne m <= rne m'.
Proof.
  intros H. assert (F := Qfloor_resp_le _ _ H).
  destruct (Z.eq_dec (Qfloor m) (Qfloor m')) as [E | E].
  - unfold rne. rewrite E.
    destruct (Qcompare_spec (m - inject_Z (Qfloor m')) (1 # 2)) as [A | A | A];
    destruct (Qcompare_spec (m' - inject_Z (Qfloor m')) (1 # 2)) as [B | B | B];
      try destruct (Z.even (Qfloor m')); try lia; exfalso; lra.
  - assert (B := rne_bounds m). assert (B' := rne_bounds m'). lia.
Qed.

(** *** Rounding to a multiple of the quantum *)

Section Nearest.
Variable f : format.
Hypothesis precision_pos : 0 < precision f.

Lemma quantum_comp (a b : Q) :
  (0 < a)%Q -> (a == b)%Q -> quantum f a = quantum f b.
Proof. intros Ha E. unfold quantum. rewrite (ilog2_comp a b Ha E). reflexivity. Qed.

Lemma nearest_comp (a b : Q) :
  (0 < a)%Q -> (a == b)%Q -> nearest f a = nearest f b.
Proof.
  intros Ha E. unfold nearest. rewrite (quantum_comp a b Ha E).
  assert (R : (a / 2 ^ quantum f b == b / 2 ^ quantum f b)%Q)
    by (rewrite E; reflexivity).
  rewrite (rne_comp _ _ R). reflexivity.
Qed.

Lemma pow2_nonzero (e : Z) : ~ (2 ^ e == 0)%Q.
Proof. intros E. assert (P := pow2_pos e). rewrite E in P. exact (Qlt_irrefl _ P). Qed.

(** A multiple of the quantum below (above) [a] is below (above) the value
    [a] is rounded to. *)
Lemma nearest_lower (a : Q) (z : Z) :
  (inject_Z z * 2 ^ quantum f a <= a)%Q ->
  (inject_Z z * 2 ^ quantum f a <= nearest f a)%Q.
Proof.
  intros H. unfold nearest. apply Qmult_le_compat_r; [|apply Qlt_le_weak, pow2_pos].
  rewrite <- Zle_Qle. apply rne_lower.
  apply Qle_shift_div_l; [apply pow2_pos | exact H].
Qed.

Lemma nearest_upper (a : Q) (z : Z) :
  (a <= inject_Z z * 2 ^ quantum f a)%Q ->
  (nearest f a <= inject_Z z * 2 ^ quantum f a)%Q.
Proof.
  intros H. unfold nearest. apply Qmult_le_compat_r; [|apply Qlt_le_weak, pow2_pos].
  rewrite <- Zle_Qle. apply rne_upper.
  apply Qle_shift_div_r; [apply pow2_pos | exact H].
Qed.

(** A power of two from the quantum on is a multiple of it. *)
Lemma pow2_multiple (e q : Z) :
  q <= e -> (2 ^ e == inject_Z (2 ^ (e - q)) * 2 ^ q)%Q.
Proof.
  intros H. rewrite <- pow2_Z by lia. rewrite <- pow2_add.
  replace (e - q + q) with e by ring. reflexivity.
Qed.

Lemma nearest_nonneg (a : Q) : (0 < a)%Q -> (0 <= nearest f a)%Q.
Proof.
  intros Ha. assert (H := nearest_lower a 0).
  rewrite Qmult_0_l in H. apply H. apply Qlt_le_weak, Ha.
Qed.

Lemma nearest_mono (a b : Q) :
  (0 < a)%Q -> (a <= b)%Q -> (nearest f a <= nearest f b)%Q.
Proof.
  intros Ha Hab.
  assert (Hb : (0 < b)%Q) by (eapply Qlt_le_trans; eassumption).
  assert (Hlog := ilog2_mono a b Ha Hab).
  destruct (Z.eq_dec (quantum f a) (quantum f b)) as [E | E].
  - unfold nearest. rewrite E.
    apply Qmult_le_compat_r; [|apply Qlt_le_weak, pow2_pos].
    rewrite <- Zle_Qle. apply rne_mono.
    apply Qmult_le_compat_r; [exact Hab|].
    apply Qlt_le_weak, Qinv_lt_0_compat, pow2_pos.
  - (* the quantum of [b] is larger: 2 ^ ilog2 b lies between the two *)
    assert (Hq : quantum f a < quantum f b) by (unfold quantum in *; lia).
    assert (Hqb : quantum f b = ilog2 b - precision f + 1)
      by (unfold quantum in *; lia).
    assert (Hlt : ilog2 a < ilog2 b) by (unfold quantum in *; lia).
    destruct (ilog2_spec a Ha) as [_ A2]. destruct (ilog2_spec b Hb) as [B1 _].
    set (c := (2 ^ ilog2 b)%Q).
    assert (Hac : (a <= c)%Q).
    { apply Qlt_le_weak. eapply Qlt_le_trans; [exact A2|].
      apply pow2_le. lia. }
    apply Qle_trans with c.
    + unfold c. rewrite (pow2_multiple (ilog2 b) (quantum f a)) by lia.
      apply nearest_upper.
      rewrite <- (pow2_multiple (ilog2 b) (quantum f a)) by lia. exact Hac.
    + unfold c. rewrite (pow2_multiple (ilog2 b) (quantum f b)) by lia.
      apply nearest_lower.
      rewrite <- (pow2_multiple (ilog2 b) (quantum f b)) by lia. exact B1.
Qed.

End Nearest.

(** *** Rounding to a format *)

Section Rounding.
Variable f : format.
Hypothesis precision_pos : 0 < precision f.

Lemma Qopp_opp (q : Q) : (- - q)%Q = q.
Proof. destruct q as [n d]. unfold Qopp. simpl. rewrite Z.opp_involutive. reflexivity. Qed.

Lemma round_comp (q q' : Q) : (q == q')%Q -> round f q = round f q'.
Proof.
  intros E. unfold round.
  assert (C : (q ?= 0)%Q = (q' ?= 0)%Q) by (rewrite E; reflexivity).
  rewrite <- C. destruct (Qcompare_spec q 0) as [H | H | H].
  - reflexivity.
  - assert (P : (0 < - q)%Q) by lra.
    assert (E' : (- q == - q')%Q) by (rewrite E; reflexivity).
    rewrite (nearest_comp f _ _ P E'). reflexivity.
  - rewrite (nearest_comp f _ _ H E). reflexivity.
Qed.

Lemma round_not_NaN (q : Q) : IsNaN (round f q) = false.
Proof.
  unfold round. destruct (q ?= 0)%Q; try reflexivity;
    destruct (Qle_bool _ _); reflexivity.
Qed.

Lemma round_zero : round f 0 = Fin 0.
Proof. reflexivity. Qed.

Lemma round_neg (q : Q) : round f (- q) = neg (round f q).
Proof.
  unfold round. destruct (Qcompare_spec q 0) as [H | H | H].
  - assert (C : (- q ?= 0)%Q = Eq) by (apply (proj1 (Qeq_alt _ _)); rewrite H; reflexivity).
    rewrite C. reflexivity.
  - assert (C : (- q ?= 0)%Q = Gt) by (apply (proj1 (Qgt_alt _ _)); lra).
    rewrite C. destruct (Qle_bool _ _); [reflexivity|].
    cbn [neg]. rewrite Qred_opp, Qopp_opp. reflexivity.
  - assert (C : (- q ?= 0)%Q = Lt) by (apply (proj1 (Qlt_alt _ _)); lra).
    rewrite C, Qopp_opp. destruct (Qle_bool _ _); [reflexivity|].
    cbn [neg]. rewrite Qred_opp. reflexivity.
Qed.

Lemma round_canonical (q : Q) : canonical (round f q).
Proof.
  assert (R : forall v, Qred (Qred v) = Qred v).
  { intros v. apply Qred_complete, Qred_correct. }
  unfold round. destruct (q ?= 0)%Q; try reflexivity;
    destruct (Qle_bool _ _); cbn [canonical]; auto.
Qed.

(** What a positive number is rounded to. *)
Lemma round_pos (q : Q) :
  (0 < q)%Q ->
  round f q = if Qle_bool (2 ^ emax f) (nearest f q) then PInf
              else Fin (Qred (nearest f q)).
Proof.
  intros H. unfold round.
  assert (C : (q ?= 0)%Q = Gt) by (apply (proj1 (Qgt_alt _ _)); exact H).
  rewrite C. reflexivity.
Qed.

Lemma round_pos_mono (a b : Q) :
  (0 < a)%Q -> (a <= b)%Q -> not_above (round f a) (round f b).
Proof.
  intros Ha Hab.
  assert (Hb : (0 < b)%Q) by (eapply Qlt_le_trans; eassumption).
  assert (M := nearest_mono f precision_pos a b Ha Hab).
  rewrite (round_pos a Ha), (round_pos b Hb). unfold not_above.
  destruct (Qle_bool (2 ^ emax f) (nearest f a)) eqn:Ea.
  - apply Qle_bool_iff in Ea.
    assert (Eb : Qle_bool (2 ^ emax f) (nearest f b) = true).
    { apply Qle_bool_iff. eapply Qle_trans; eassumption. }
    rewrite Eb. reflexivity.
  - destruct (Qle_bool (2 ^ emax f) (nearest f b)); [reflexivity|].
    apply ltb_Fin_false. rewrite !Qred_correct. exact M.
Qed.

(** A number that is not negative is not rounded below zero. *)
Lemma round_nonneg (q : Q) : (0 <= q)%Q -> not_above (Fin 0) (round f q).
Proof.
  intros H. unfold not_above.
  destruct (Qle_lt_or_eq _ _ H) as [P | E].
  - rewrite (round_pos q P). destruct (Qle_bool _ _); [reflexivity|].
    apply ltb_Fin_false. rewrite Qred_correct.
    apply nearest_nonneg, P.
  - rewrite <- (round_comp 0 q E). reflexivity.
Qed.

Lemma not_above_neg (x y : dbl) :
  not_above x y -> not_above (neg y) (neg x).
Proof.
  unfold not_above. destruct x as [| | |a], y as [| | |b]; simpl; auto.
  intros H. apply (proj1 (ltb_Fin_false b a)) in H.
  apply (ltb_Fin_false (- a) (- b)). lra.
Qed.

Lemma round_nonpos (q : Q) : (q <= 0)%Q -> not_above (round f q) (Fin 0).
Proof.
  intros H. assert (P : (0 <= - q)%Q) by lra.
  apply round_nonneg in P. rewrite round_neg in P.
  apply not_above_neg in P. cbn [neg] in P.
  destruct (round f q) as [| | |v]; simpl in *; auto.
  unfold not_above in *.
  apply (proj1 (ltb_Fin_false (- 0) (- - v))) in P.
  apply (ltb_Fin_false 0 v). lra.
Qed.

(** Rounding keeps the order. *)
Lemma round_mono (a b : Q) :
  (a <= b)%Q -> not_above (round f a) (round f b).
Proof.
  intros Hab.
  destruct (Qlt_le_dec 0 a) as [Ha | Ha].
  - apply round_pos_mono; assumption.
  - destruct (Qlt_le_dec b 0) as [Hb | Hb].
    + assert (P : (0 < - b)%Q) by lra.
      assert (M := round_pos_mono (- b) (- a) P ltac:(lra)).
      rewrite !round_neg in M. apply not_above_neg in M.
      destruct (round f a) as [| | |u], (round f b) as [| | |v];
        simpl in *; auto.
      unfold not_above in *.
      apply (proj1 (ltb_Fin_false (- - v) (- - u))) in M.
      apply (ltb_Fin_false v u). lra.
    + apply not_above_trans with (Fin 0); [reflexivity | |].
      * apply round_nonpos, Ha.
      * apply round_nonneg, Hb.
Qed.

(** The numbers of the format: rounding one gives it back. *)
Lemma nearest_exact (v : Q) :
  (0 < v)%Q -> in_format f v -> (nearest f v == v)%Q.
Proof.
  intros Hv [m [e [Hm [Hbound [He Hmax]]]]].
  assert (Hmpos : 0 < m).
  { destruct (Z.lt_ge_cases 0 m) as [H | H]; [exact H|]. exfalso.
    assert (P : (inject_Z m * 2 ^ e <= 0)%Q).
    { assert (Hm0 : (inject_Z m <= 0)%Q).
      { replace 0%Q with (inject_Z 0) by reflexivity. rewrite <- Zle_Qle. exact H. }
      assert (E := pow2_pos e).
      setoid_replace 0%Q with (0 * 2 ^ e)%Q by ring.
      apply Qmult_le_compat_r; [exact Hm0 | apply Qlt_le_weak, E]. }
    rewrite <- Hm in P. lra. }
  destruct (ilog2_spec v Hv) as [L1 L2].
  set (L := ilog2 v) in *. set (p := precision f) in *.
  assert (HN : exists N : Z, (v == inject_Z N * 2 ^ quantum f v)%Q).
  { destruct (Z.le_gt_cases (quantum f v) e) as [Hq | Hq].
    - exists (m * 2 ^ (e - quantum f v)).
      rewrite inject_Z_mult, <- Qmult_assoc.
      rewrite <- (pow2_multiple e (quantum f v) Hq). exact Hm.
    - assert (Hqv : quantum f v = L - p + 1) by (unfold quantum in *; fold L p; lia).
      assert (Hmp : (inject_Z m <= 2 ^ p)%Q).
      { rewrite pow2_Z by (unfold p; lia). rewrite <- Zle_Qle. lia. }
      assert (Hv' : (v <= 2 ^ (p + e))%Q).
      { rewrite Hm, pow2_add.
        apply Qmult_le_compat_r; [exact Hmp | apply Qlt_le_weak, pow2_pos]. }
      assert (HL : L = p + e).
      { destruct (Z.le_gt_cases L (p + e)) as [H | H]; [lia|]. exfalso.
        assert (P := pow2_lt (p + e) L H). lra. }
      exists (2 ^ (p - 1)).
      rewrite <- pow2_Z by (unfold p; lia). rewrite <- pow2_add.
      replace (p - 1 + quantum f v) with (p + e) by lia.
      apply Qle_antisym; [exact Hv'|]. rewrite <- HL. exact L1. }
  destruct HN as [N HN]. unfold nearest.
  assert (R : (v / 2 ^ quantum f v == inject_Z N)%Q).
  { rewrite HN at 1. field. apply pow2_nonzero. }
  rewrite (rne_comp _ _ R), rne_Z. symmetry. exact HN.
Qed.

Lemma in_format_opp (v : Q) : in_format f v -> in_format f (- v).
Proof.
  intros [m [e [Hm [Hbound [He Hmax]]]]]. exists (- m), e.
  split; [rewrite Hm, inject_Z_opp; ring|]. split; [lia|].
  split; [exact He|]. rewrite Qabs_opp. exact Hmax.
Qed.

Lemma round_exact (v : Q) : in_format f v -> round f v = Fin (Qred v).
Proof.
  intros Hv. assert (Hmax : (Qabs v < 2 ^ emax f)%Q).
  { destruct Hv as [m [e [_ [_ [_ H]]]]]. exact H. }
  unfold round. destruct (Qcompare_spec v 0) as [H | H | H].
  - f_equal. symmetry. change 0%Q with (Qred 0). apply Qred_complete, H.
  - assert (P : (0 < - v)%Q) by lra.
    assert (E := nearest_exact (- v) P (in_format_opp v Hv)).
    assert (O : Qle_bool (2 ^ emax f) (nearest f (- v)) = false).
    { apply Bool.not_true_iff_false. intros T. apply Qle_bool_iff in T.
      rewrite E in T. rewrite Qabs_neg in Hmax by lra. lra. }
    rewrite O. f_equal. apply Qred_complete. rewrite E. ring.
  - assert (E := nearest_exact v H Hv).
    assert (O : Qle_bool (2 ^ emax f) (nearest f v) = false).
    { apply Bool.not_true_iff_false. intros T. apply Qle_bool_iff in T.
      rewrite E in T. rewrite Qabs_pos in Hmax by lra. lra. }
    rewrite O. f_equal. apply Qred_complete, E.
Qed.

Lemma nearest_in_format (q : Q) :
  (0 < q)%Q -> (nearest f q < 2 ^ emax f)%Q -> in_format f (nearest f q).
Proof.
  intros Hq Hmax. unfold nearest in *.
  set (ex := quantum f q) in *. set (N := rne (q / 2 ^ ex)) in *.
  destruct (ilog2_spec q Hq) as [L1 L2].
  assert (Hex : ilog2 q + 1 - ex <= precision f) by (unfold ex, quantum; lia).
  assert (HN0 : 0 <= N).
  { apply rne_lower. apply Qle_shift_div_l; [apply pow2_pos|].
    rewrite Qmult_0_l. apply Qlt_le_weak, Hq. }
  assert (HN1 : N <= 2 ^ precision f).
  { apply rne_upper. apply Qle_shift_div_r; [apply pow2_pos|].
    rewrite <- pow2_Z by lia. rewrite <- pow2_add.
    apply Qlt_le_weak. eapply Qlt_le_trans; [exact L2|].
    apply pow2_le. lia. }
  exists N, ex. split; [reflexivity|]. split; [lia|].
  split; [unfold ex, quantum; lia|].
  - rewrite Qabs_pos; [exact Hmax|].
    apply Qmult_le_0_compat; [|apply Qlt_le_weak, pow2_pos].
    replace 0%Q with (inject_Z 0) by reflexivity. rewrite <- Zle_Qle. exact HN0.
Qed.

Lemma in_format_comp (v v' : Q) : (v == v')%Q -> in_format f v -> in_format f v'.
Proof.
  intros E [m [e [Hm [Hbound [He Hmax]]]]]. exists m, e.
  split; [rewrite <- E; exact Hm|]. split; [exact Hbound|].
  split; [exact He|]. rewrite <- E. exact Hmax.
Qed.

Lemma in_format_zero : in_format f 0.
Proof.
  exists 0, (emin f). split; [ring|].
  split; [simpl; apply Z.pow_nonneg; lia|]. split; [lia|]. apply pow2_pos.
Qed.

(** What rounding gives is a number of the format. *)
Lemma round_representable (q : Q) : representable f (round f q).
Proof.
  unfold round. destruct (Qcompare_spec q 0) as [H | H | H].
  - apply in_format_zero.
  - assert (P : (0 < - q)%Q) by lra.
    destruct (Qle_bool _ _) eqn:O; [exact I|].
    assert (O' : (nearest f (- q) < 2 ^ emax f)%Q).
    { apply Qnot_le_lt. intros T. apply Qle_bool_iff in T. congruence. }
    cbn [representable].
    apply (in_format_comp (- nearest f (- q))); [symmetry; apply Qred_correct|].
    apply in_format_opp, nearest_in_format; assumption.
  - destruct (Qle_bool _ _) eqn:O; [exact I|].
    assert (O' : (nearest f q < 2 ^ emax f)%Q).
    { apply Qnot_le_lt. intros T. apply Qle_bool_iff in T. congruence. }
    cbn [representable].
    apply (in_format_comp (nearest f q)); [symmetry; apply Qred_correct|].
    apply nearest_in_format; assumption.
Qed.

Lemma cast_representable (x : dbl) : representable f (cast f x).
Proof. destruct x; try exact I. apply round_representable. Qed.

(** A value of the format is not changed by a conversion to it. *)
Lemma cast_exact (x : dbl) : representable f x -> same (cast f x) x.
Proof.
  destruct x as [| | |v]; try (intros; exact I).
  intros H. cbn [cast]. rewrite (round_exact v H). simpl. apply Qred_correct.
Qed.

Lemma cast_same (x y : dbl) : same x y -> cast f x = cast f y.
Proof.
  destruct x, y; simpl; try contradiction; auto. apply round_comp.
Qed.

Lemma cast_canonical (x : dbl) : canonical x -> canonical (cast f x).
Proof. destruct x; auto. intros _. apply round_canonical. Qed.

Lemma cast_not_NaN (x : dbl) : IsNaN (cast f x) = IsNaN x.
Proof. destruct x; try reflexivity. apply round_not_NaN. Qed.

(** Conversion keeps the order. *)
Lemma cast_mono (x y : dbl) : not_above x y -> not_above (cast f x) (cast f y).
Proof.
  unfold not_above.
  destruct x as [| | |a], y as [| | |b]; cbn [cast]; try (simpl; congruence);
    try (intros _; destruct (round f _); reflexivity).
  intros H. apply (proj1 (ltb_Fin_false b a)) in H. apply round_mono, H.
Qed.

End Rounding.

Lemma in_format_weaken (f g : format) (v : Q) :
  precision f <= precision g -> emin g <= emin f -> emax f <= emax g ->
  0 < precision f -> in_format f v -> in_format g v.
Proof.
  intros Hp He Hx Hpos [m [e [Hm [Hbound [Hemin Hmax]]]]].
  exists m, e. split; [exact Hm|]. split.
  - assert (2 ^ precision f <= 2 ^ precision g) by (apply Z.pow_le_mono_r; lia).
    lia.
  - split; [lia|]. eapply Qlt_le_trans; [exact Hmax | apply pow2_le, Hx].
Qed.

Lemma binary32_in_binary64 (x : dbl) :
  representable binary32 x -> representable binary64 x.
Proof.
  destruct x; auto. apply in_format_weaken; simpl; unfold emin; simpl; lia.
Qed.


(** The operations do not depend on how a number is written. *)
Lemma Qcompare_same (a a' b b' : Q) :
  (a == a')%Q -> (b == b')%Q -> (a ?= b)%Q = (a' ?= b')%Q.
Proof. intros Ha Hb. rewrite Ha, Hb. reflexivity. Qed.

Lemma ltb_same (x x' y y' : dbl) :
  (x == x')%D -> (y == y')%D -> (x <? y)%D = (x' <? y')%D.
Proof.
  destruct x, x', y, y'; simpl; try contradiction; auto.
  intros Hx Hy. rewrite (Qcompare_same _ _ _ _ Hx Hy). reflexivity.
Qed.

Lemma eqb_same (x x' y y' : dbl) :
  (x == x')%D -> (y == y')%D -> (x =? y)%D = (x' =? y')%D.
Proof.
  destruct x, x', y, y'; simpl; try contradiction; auto.
  intros Hx Hy. apply Bool.eq_iff_eq_true.
  rewrite !Qeq_bool_iff, Hx, Hy. reflexivity.
Qed.

Lemma leb_same (x x' y y' : dbl) :
  (x == x')%D -> (y == y')%D -> (x <=? y)%D = (x' <=? y')%D.
Proof.
  intros Hx Hy. unfold leb.
  rewrite (ltb_same _ _ _ _ Hx Hy), (eqb_same _ _ _ _ Hx Hy). reflexivity.
Qed.

Lemma neg_same (x x' : dbl) : (x == x')%D -> (- x == - x')%D.
Proof.
  destruct x, x'; simpl; try contradiction; auto.
  intros H. rewrite H. reflexivity.
Qed.

Lemma exact_add_same (x x' y y' : dbl) :
  (x == x')%D -> (y == y')%D -> (exact_add x y == exact_add x' y')%D.
Proof.
  destruct x, x', y, y'; simpl; try contradiction; auto.
  intros Hx Hy. rewrite Hx, Hy. reflexivity.
Qed.

Lemma exact_mul_same (x x' y y' : dbl) :
  (x == x')%D -> (y == y')%D -> (exact_mul x y == exact_mul x' y')%D.
Proof.
  destruct x, x', y, y'; simpl; try contradiction; auto; unfold inf_times;
    intros Hx Hy;
    try (rewrite (Qcompare_same _ _ 0 0 Hy (Qeq_refl 0));
         destruct (_ ?= 0)%Q; exact I);
    try (rewrite (Qcompare_same _ _ 0 0 Hx (Qeq_refl 0));
         destruct (_ ?= 0)%Q; exact I).
  rewrite Hx, Hy. reflexivity.
Qed.

Lemma exact_div_same (x x' y y' : dbl) :
  (x == x')%D -> (y == y')%D -> (exact_div x y == exact_div x' y')%D.
Proof.
  destruct x, x', y, y'; simpl; try contradiction; auto; unfold inf_over;
    intros Hx Hy;
    try (rewrite (Qcompare_same _ _ 0 0 Hy (Qeq_refl 0));
         destruct (_ ?= 0)%Q; exact I);
    try reflexivity.
  rewrite (Qcompare_same _ _ 0 0 Hy (Qeq_refl 0)).
  rewrite (Qcompare_same _ _ 0 0 Hx (Qeq_refl 0)).
  destruct (_ ?= 0)%Q; [destruct (_ ?= 0)%Q; exact I | |];
    simpl; rewrite Hx, Hy; reflexivity.
Qed.

Lemma add_in_same (f : format) (x x' y y' : dbl) :
  (x == x')%D -> (y == y')%D -> add_in f x y = add_in f x' y'.
Proof. intros Hx Hy. apply cast_same, exact_add_same; assumption. Qed.

Lemma sub_in_same (f : format) (x x' y y' : dbl) :
  (x == x')%D -> (y == y')%D -> sub_in f x y = sub_in f x' y'.
Proof. intros Hx Hy. apply add_in_same; [exact Hx | apply neg_same, Hy]. Qed.

Lemma add_same (x x' y y' : dbl) :
  (x == x')%D -> (y == y')%D -> (x + y)%D = (x' + y')%D.
Proof. apply add_in_same. Qed.

Lemma mul_same (x x' y y' : dbl) :
  (x == x')%D -> (y == y')%D -> (x * y)%D = (x' * y')%D.
Proof. intros Hx Hy. apply cast_same, exact_mul_same; assumption. Qed.

Lemma div_same (x x' y y' : dbl) :
  (x == x')%D -> (y == y')%D -> (x / y)%D = (x' / y')%D.
Proof. intros Hx Hy. apply cast_same, exact_div_same; assumption. Qed.

(** The formats of the program. *)
Lemma InputType_precision `{L : Library} : 0 < precision InputType.
Proof. unfold InputType. destruct RealPixel; reflexivity. Qed.

Lemma InputType_in_double `{L : Library} (x : dbl) :
  representable InputType x -> representable binary64 x.
Proof.
  unfold InputType. destruct RealPixel; cbn [format_of]; auto.
  apply binary32_in_binary64.
Qed.

Lemma canonical_zero (x : dbl) : canonical x -> (x == zero)%D -> x = zero.
Proof.
  destruct x as [| | |q]; simpl; try contradiction. intros C E.
  rewrite <- C. unfold zero. f_equal. change 0%Q with (Qred 0).
  apply Qred_complete, E.
Qed.

Lemma milli_finite : exists q, milli = Fin q.
Proof. eexists. vm_compute. reflexivity. Qed.

Lemma cast_micro_finite (f : floating) :
  exists q, cast (format_of f) micro = Fin q.
Proof. destruct f; eexists; vm_compute; reflexivity. Qed.

(* ========================================================================= *)
(** ** Dispersion statistics on degenerate arguments *)
(* ========================================================================= *)

(** C8.  [GiniCoefficient] of an array without elements: the loop does not
    run, both sums stay 0, and the closing ratio is taken with the divisor
    0 * 0, which is 0; the result is NaN, the array is returned as it came and
    nothing is thrown. *)
Theorem GiniCoefficient_empty `{L : Library} :
  gini_sums 0 0 [] zero zero = (zero, zero) /\
  (of_int 0 * zero =? zero)%D = true /\
  GiniCoefficient [] = ((zero / (of_int 0 * zero))%D, []) /\
  GiniCoefficient [] = (NaN, []).
Proof.
  assert (H : GiniCoefficient [] = (NaN, [])).
  { unfold GiniCoefficient, ShiftToPositive. simpl MinElement.
    destruct (MinElement_empty <=? zero)%D; reflexivity. }
  repeat split; try reflexivity; exact H.
Qed.

(** C7.  [EntropyIndex] throws, and then the invalid-argument error, exactly
    for a negative [alpha]; for every other [alpha] it returns, and on an array
    without elements what it returns is 0. *)
Theorem EntropyIndex_invalid_argument `{L : Library}
    (samples : InputArray) (alpha : Z) :
  (alpha < 0 -> EntropyIndex samples alpha = Error ERR_InvalidArgument) /\
  (0 <= alpha ->
   exists value samples', EntropyIndex samples alpha = Ok (value, samples')) /\
  (0 <= alpha -> EntropyIndex [] alpha = Ok (zero, [])).
Proof.
  unfold EntropyIndex. repeat split.
  - intros H. apply Z.ltb_lt in H. rewrite H. reflexivity.
  - intros H. apply Z.ltb_ge in H. rewrite H.
    destruct (Z.of_nat (length samples) =? 0); eauto.
  - intros H. apply Z.ltb_ge in H. rewrite H. reflexivity.
Qed.

Lemma EntropyIndex_invalid_argument_witness :
  EntropyIndex (L := Examples.library) [Fin 1; Fin 2] (-1)
  = Error ERR_InvalidArgument /\
  EntropyIndex (L := Examples.library) [] 0 = Ok (zero, []).
Proof.
  split.
  - apply (proj1 (EntropyIndex_invalid_argument [Fin 1; Fin 2] (-1))). lia.
  - apply (proj2 (proj2 (EntropyIndex_invalid_argument [Fin 3] 0))). lia.
Defined.

(* ========================================================================= *)
(** ** Samples that are all equal *)
(* ========================================================================= *)

Lemma length_insert (x : dbl) (l : list dbl) :
  length (insert x l) = S (length l).
Proof.
  induction l as [|y l IH]; simpl; auto.
  destruct (x <? y)%D; simpl; auto.
Qed.

Lemma length_Sort (l : list dbl) : length (Sort l) = length l.
Proof.
  induction l as [|x l IH]; simpl; auto.
  rewrite length_insert, IH. reflexivity.
Qed.

Lemma min_element_Forall (P : dbl -> Prop) (rest : list dbl) :
  forall x, P x -> Forall P rest -> P (min_element x rest).
Proof.
  unfold min_element. induction rest as [|y rest IH]; simpl; intros x Hx Hr.
  - exact Hx.
  - inversion Hr; subst. apply IH; auto. destruct (y <? x)%D; auto.
Qed.

(* ========================================================================= *)
(** ** Equal samples *)
(* ========================================================================= *)

(** C5.  Two equal samples far enough below zero: the [1e-6] subtracted from
    the minimum is lost in the rounding, in [float] as in [double], the
    shift leaves both samples at 0 and not above it, and [GiniCoefficient]
    ends in 0 / 0.  [EntropyIndex] ends the same way: for [alpha = 2] the
    sum of squares 0 is divided by the squared mean 0. *)
Theorem equal_samples_shifted_to_zero `{L : Library} :
  let x := Fin (- (1099511627776 # 1)) in
  (x =? x)%D = true /\
  ShiftToPositive [x; x] = [zero; zero] /\
  GiniCoefficient [x; x] = (NaN, [zero; zero]) /\
  EntropyIndex [x; x] 2 = Ok (NaN, [zero; zero]).
Proof.
  destruct L as [T tol empty lg pw mean median stdev normal extrema entropy].
  destruct T; vm_compute; repeat split.
Qed.

(** Where the shift is not lost, five samples equal to the [double] nearest
    to 0.1 still do not give 0: the rank-weighted sum is left with a rounding
    error, and the coefficient comes out below zero. *)
Example equal_samples_rounding_error :
  let x := cast binary64 (Fin (1 # 10)) in
  fst (GiniCoefficient (L := Examples.library) [x; x; x; x; x])
  = Fin (- (3602879701896397 # 162259276829213363391578010288128)) /\
  EntropyIndex (L := Examples.library) [x; x; x] 2
  = Ok (Fin (- (6004799503160661 # 81129638414606681695789005144064)),
        [x; x; x]).
Proof. vm_compute. split; reflexivity. Qed.

(* ========================================================================= *)
(** ** Rescaled samples *)
(* ========================================================================= *)

Lemma ltb_of_int (x y : Z) : (of_int x <? of_int y)%D = (x <? y).
Proof.
  unfold of_int, Z.ltb. simpl. unfold Qcompare. simpl.
  rewrite !Z.mul_1_r. reflexivity.
Qed.

Lemma insert_of_int (x : Z) (l : list Z) :
  insert (of_int x) (map of_int l) = map of_int (insert_Z x l).
Proof.
  induction l as [|y l IH]; cbn [map insert insert_Z]; [reflexivity|].
  rewrite ltb_of_int. destruct (x <? y); cbn [map]; [reflexivity|].
  rewrite IH. reflexivity.
Qed.

Lemma Sort_of_int (zs : list Z) : Sort (map of_int zs) = map of_int (sort_Z zs).
Proof.
  induction zs as [|z zs IH]; [reflexivity|].
  cbn [map Sort sort_Z fold_right]. fold (Sort (map of_int zs)).
  fold (sort_Z zs). rewrite IH. apply insert_of_int.
Qed.

Section IntegerSamples.
Variable k : Z.
Hypothesis k_pos : 0 < k.

Lemma insert_Z_scale (x : Z) (l : list Z) :
  insert_Z (k * x) (map (Z.mul k) l) = map (Z.mul k) (insert_Z x l).
Proof.
  induction l as [|y l IH]; cbn [map insert_Z]; [reflexivity|].
  assert (E : (k * x <? k * y) = (x <? y)).
  { destruct (Z.ltb_spec x y) as [H | H]; [apply Z.ltb_lt | apply Z.ltb_ge].
    - apply Z.mul_lt_mono_pos_l; assumption.
    - apply Z.mul_le_mono_nonneg_l; [lia | exact H]. }
  rewrite E. destruct (x <? y); cbn [map]; [reflexivity|].
  rewrite IH. reflexivity.
Qed.

Lemma sort_Z_scale (zs : list Z) :
  sort_Z (map (Z.mul k) zs) = map (Z.mul k) (sort_Z zs).
Proof.
  induction zs as [|z zs IH]; [reflexivity|].
  cbn [map sort_Z fold_right]. fold (sort_Z (map (Z.mul k) zs)).
  fold (sort_Z zs). rewrite IH. apply insert_Z_scale.
Qed.

Lemma sum_Z_scale (zs : list Z) : sum_Z (map (Z.mul k) zs) = k * sum_Z zs.
Proof.
  induction zs as [|z zs IH]; cbn [map sum_Z fold_right]; [lia|].
  fold (sum_Z (map (Z.mul k) zs)). fold (sum_Z zs). rewrite IH. ring.
Qed.

Lemma rank_sum_Z_scale (n : Z) (zs : list Z) :
  forall i, rank_sum_Z n i (map (Z.mul k) zs) = k * rank_sum_Z n i zs.
Proof.
  induction zs as [|z zs IH]; intros i; cbn [map rank_sum_Z]; [lia|].
  rewrite IH. ring.
Qed.

Lemma Forall_scale (zs : list Z) :
  Forall (fun z => 0 < z) zs -> Forall (fun z => 0 < z) (map (Z.mul k) zs).
Proof.
  intros H. rewrite Forall_map. eapply Forall_impl; [|exact H].
  intros z Hz. cbv beta in *. apply Z.mul_pos_pos; assumption.
Qed.

End IntegerSamples.

Lemma sum_Z_insert (x : Z) (l : list Z) : sum_Z (insert_Z x l) = x + sum_Z l.
Proof.
  induction l as [|y l IH]; cbn [insert_Z]; [reflexivity|].
  destruct (x <? y); [reflexivity|].
  cbn [sum_Z fold_right]. fold (sum_Z (insert_Z x l)). fold (sum_Z l).
  rewrite IH. ring.
Qed.

Lemma sum_Z_sort (zs : list Z) : sum_Z (sort_Z zs) = sum_Z zs.
Proof.
  induction zs as [|z zs IH]; [reflexivity|].
  cbn [sort_Z fold_right]. fold (sort_Z zs). rewrite sum_Z_insert, IH.
  reflexivity.
Qed.

Lemma Forall_insert_Z (P : Z -> Prop) (x : Z) (l : list Z) :
  P x -> Forall P l -> Forall P (insert_Z x l).
Proof.
  intros Hx Hl. induction Hl as [|y l Hy Hl IH]; cbn [insert_Z].
  - constructor; auto.
  - destruct (x <? y); repeat constructor; auto.
Qed.

Lemma Forall_sort_Z (P : Z -> Prop) (zs : list Z) :
  Forall P zs -> Forall P (sort_Z zs).
Proof.
  induction 1 as [|z zs Hz Hzs IH]; [constructor|].
  cbn [sort_Z fold_right]. apply Forall_insert_Z; assumption.
Qed.

Lemma length_sort_Z (zs : list Z) : length (sort_Z zs) = length zs.
Proof.
  rewrite <- (length_map of_int (sort_Z zs)), <- Sort_of_int, length_Sort.
  apply length_map.
Qed.

Lemma sum_Z_nonneg (zs : list Z) : Forall (fun z => 0 < z) zs -> 0 <= sum_Z zs.
Proof.
  induction 1 as [|z zs Hz Hzs IH]; cbn [sum_Z fold_right]; [lia|].
  fold (sum_Z zs). lia.
Qed.

Lemma sum_Z_pos (zs : list Z) :
  zs <> [] -> Forall (fun z => 0 < z) zs -> 0 < sum_Z zs.
Proof.
  intros Hne H. destruct H as [|z zs Hz Hzs]; [congruence|].
  cbn [sum_Z fold_right]. fold (sum_Z zs).
  assert (N := sum_Z_nonneg zs Hzs). lia.
Qed.

(** An integer of at most 53 bits is a [double]. *)
Lemma round_int (q : Q) (z : Z) :
  (q == inject_Z z)%Q -> Z.abs z <= 2 ^ 53 ->
  (round binary64 q == of_int z)%D.
Proof.
  intros E Hz.
  assert (F : in_format binary64 q).
  { exists z, 0. split; [rewrite E; change (2 ^ 0)%Q with 1%Q; ring|].
    split; [exact Hz|]. split; [discriminate|].
    rewrite E. apply Qle_lt_trans with (inject_Z (2 ^ 53)).
    - destruct z as [|p|p]; simpl in *; unfold Qabs, inject_Z, Qle; simpl; lia.
    - reflexivity. }
  rewrite (round_exact binary64 eq_refl q F). simpl.
  rewrite Qred_correct. exact E.
Qed.

Lemma exact_div_Fin (a b : Q) :
  ~ (b == 0)%Q -> exact_div (Fin a) (Fin b) = Fin (a / b).
Proof.
  intros Hb. simpl. destruct (b ?= 0)%Q eqn:E; try reflexivity.
  apply Qeq_alt in E. contradiction.
Qed.

(** Positive samples are not shifted. *)
Lemma ShiftToPositive_of_int `{L : Library} (zs : list Z) :
  Forall (fun z => 0 < z) zs ->
  ShiftToPositive (map of_int zs) = map of_int zs.
Proof.
  intros H. unfold ShiftToPositive. destruct zs as [|z zs].
  - cbn [map MinElement]. destruct (MinElement_empty <=? zero)%D; reflexivity.
  - cbn [map MinElement]. inversion H as [|? ? Hz Hzs]; subst.
    destruct (min_element_Forall (fun x => exists w, x = of_int w /\ 0 < w)
                (map of_int zs) (of_int z)) as [w [-> Hw]].
    + exists z. auto.
    + rewrite Forall_map. eapply Forall_impl; [|exact Hzs].
      intros w Hw. exists w. auto.
    + assert (E : (of_int w <=? zero)%D = false).
      { unfold of_int, zero. apply leb_Fin_false.
        replace 0%Q with (inject_Z 0) by reflexivity. rewrite <- Zlt_Qlt.
        exact Hw. }
      rewrite E. reflexivity.
Qed.

(** While the sums stay within 53 bits, the loop of [GiniCoefficient] over
    integer samples computes them without error. *)
Lemma gini_sums_exact (n : Z) (ws : list Z) :
  Forall (fun w => 0 < w) ws ->
  forall (i a b : Z) (s1 s2 : dbl),
  0 <= i -> i + Z.of_nat (length ws) <= n ->
  Z.abs a <= (n - 1) * b -> 0 <= b ->
  n * (b + sum_Z ws) <= 2 ^ 53 ->
  (s1 == of_int a)%D -> (s2 == of_int b)%D ->
  (fst (gini_sums n i (map of_int ws) s1 s2)
   == of_int (a + rank_sum_Z n i ws))%D /\
  (snd (gini_sums n i (map of_int ws) s1 s2) == of_int (b + sum_Z ws))%D.
Proof.
  induction 1 as [|w ws Hw Hws IH]; intros i a b s1 s2 Hi Hn Ha Hb Hbound H1 H2.
  - cbn [map gini_sums fst snd rank_sum_Z sum_Z fold_right].
    rewrite !Z.add_0_r. split; assumption.
  - cbn [map gini_sums rank_sum_Z sum_Z fold_right length] in *.
    fold (sum_Z ws) in *. rewrite Nat2Z.inj_succ in Hn.
    assert (Hsum := sum_Z_nonneg ws Hws).
    set (c := 2 * i - n + 1) in *.
    assert (Hc : - (n - 1) <= c <= n - 1) by (unfold c; lia).
    assert (Hcw : Z.abs (c * w) <= (n - 1) * w) by nia.
    assert (Hn1 : 1 <= n) by lia.
    assert (Hp : (of_int c * of_int w == of_int (c * w))%D).
    { unfold mul, mul_in, of_int. cbn [exact_mul cast].
      apply round_int; [rewrite inject_Z_mult; reflexivity | nia]. }
    assert (H1' : (s1 + of_int c * of_int w == of_int (a + c * w))%D).
    { rewrite (add_same _ _ _ _ H1 Hp).
      unfold add, add_in, of_int. cbn [exact_add cast].
      apply round_int; [rewrite inject_Z_plus; reflexivity | nia]. }
    assert (H2' : (s2 + of_int w == of_int (b + w))%D).
    { rewrite (add_same _ _ _ _ H2 (same_refl _)).
      unfold add, add_in, of_int. cbn [exact_add cast].
      apply round_int; [rewrite inject_Z_plus; reflexivity | nia]. }
    destruct (IH (i + 1) (a + c * w) (b + w) _ _ ltac:(lia) ltac:(lia)
                 ltac:(nia) ltac:(lia) ltac:(nia) H1' H2') as [R1 R2].
    split.
    + replace (a + (c * w + rank_sum_Z n (i + 1) ws))
        with (a + c * w + rank_sum_Z n (i + 1) ws) by ring. exact R1.
    + replace (b + (w + sum_Z ws)) with (b + w + sum_Z ws) by ring. exact R2.
Qed.

(** What [GiniCoefficient] returns for integer samples whose sums stay
    within 53 bits: the quotient of the two exact sums, rounded once. *)
Lemma GiniCoefficient_of_int `{L : Library} (zs : list Z) :
  zs <> [] -> Forall (fun z => 0 < z) zs ->
  Z.of_nat (length zs) * sum_Z zs <= 2 ^ 53 ->
  fst (GiniCoefficient (map of_int zs))
  = round binary64
      (inject_Z (rank_sum_Z (Z.of_nat (length zs)) 0 (sort_Z zs))
       / inject_Z (Z.of_nat (length zs) * sum_Z zs)).
Proof.
  intros Hne Hpos Hbound. unfold GiniCoefficient.
  rewrite (ShiftToPositive_of_int zs Hpos), Sort_of_int, length_map.
  set (n := Z.of_nat (length zs)) in *.
  assert (Hn : 1 <= n) by (unfold n; destruct zs; [congruence | simpl; lia]).
  assert (Hsum := sum_Z_pos zs Hne Hpos).
  destruct (gini_sums_exact n (sort_Z zs) (Forall_sort_Z _ zs Hpos)
              0 0 0 zero zero) as [H1 H2].
  - lia.
  - rewrite length_sort_Z. fold n. lia.
  - lia.
  - lia.
  - rewrite sum_Z_sort. lia.
  - apply same_refl.
  - apply same_refl.
  - destruct (gini_sums n 0 (map of_int (sort_Z zs)) zero zero)
      as [sum1 sum2].
    cbn [fst snd] in *. rewrite sum_Z_sort in H2. rewrite !Z.add_0_l in *.
    assert (Hden : (of_int n * sum2 == of_int (n * sum_Z zs))%D).
    { rewrite (mul_same _ _ _ _ (same_refl _) H2).
      unfold mul, mul_in, of_int. cbn [exact_mul cast].
      apply round_int; [rewrite inject_Z_mult; reflexivity | lia]. }
    rewrite (div_same _ _ _ _ H1 Hden).
    unfold div, div_in, of_int. rewrite exact_div_Fin; [reflexivity|].
    intros E. apply (inject_Z_injective (n * sum_Z zs) 0) in E. nia.
Qed.

(** C6, amended.  For positive integer samples and an integer factor
    [k >= 1], as long as the number of samples times the sum of the rescaled
    samples stays within 53 bits, so that the sums are formed without
    rounding, [GiniCoefficient] of the samples times [k] is that of the
    samples. *)
Theorem GiniCoefficient_rescale_integers `{L : Library}
    (k : Z) (zs : list Z) :
  0 < k -> Forall (fun z => 0 < z) zs ->
  Z.of_nat (length zs) * (k * sum_Z zs) <= 2 ^ 53 ->
  (fst (GiniCoefficient (map of_int (map (Z.mul k) zs)))
   == fst (GiniCoefficient (map of_int zs)))%D.
Proof.
  intros Hk Hpos Hbound. destruct zs as [|z zs'] eqn:Ezs.
  - apply same_refl.
  - rewrite <- Ezs in *.
    assert (Hne : zs <> []) by (rewrite Ezs; discriminate).
    assert (Hne' : map (Z.mul k) zs <> []) by (rewrite Ezs; discriminate).
    assert (Hsum := sum_Z_pos zs Hne Hpos).
    set (n := Z.of_nat (length zs)) in *.
    assert (Hn : 1 <= n) by (unfold n; rewrite Ezs; simpl; lia).
    rewrite (GiniCoefficient_of_int (map (Z.mul k) zs) Hne'
               (Forall_scale k Hk zs Hpos))
      by (rewrite length_map, sum_Z_scale; exact Hbound).
    rewrite (GiniCoefficient_of_int zs Hne Hpos) by (fold n; nia).
    rewrite length_map, sum_Z_scale, (sort_Z_scale k Hk), rank_sum_Z_scale.
    fold n.
    assert (E : (inject_Z (k * rank_sum_Z n 0 (sort_Z zs))
                 / inject_Z (n * (k * sum_Z zs))
                 == inject_Z (rank_sum_Z n 0 (sort_Z zs))
                    / inject_Z (n * sum_Z zs))%Q).
    { rewrite !inject_Z_mult. field.
      repeat split; intros E; apply (proj1 (inject_Z_injective _ 0)) in E;
        lia. }
    rewrite (round_comp binary64 _ _ E). apply same_refl.
Qed.

Lemma GiniCoefficient_rescale_integers_witness :
  (fst (GiniCoefficient (L := Examples.library)
          (map of_int (map (Z.mul 3) [4; 1; 2])))
   == fst (GiniCoefficient (L := Examples.library) (map of_int [4; 1; 2])))%D.
Proof.
  apply (GiniCoefficient_rescale_integers (L := Examples.library) 3 [4; 1; 2]).
  - lia.
  - repeat constructor.
  - vm_compute. discriminate.
Defined.

(** C6 as stated fails once a sample is not above zero: the shift by
    [min - 1e-6] does not rescale with the samples, and the samples 0, 1 and
    their doubles 0, 2 give different coefficients.  Among positive samples
    it fails through the rounding of the sums: 1, 2^53 and their triples
    differ in the last bits. *)
Lemma GiniCoefficient_rescale_counterexample :
  ~ (fst (GiniCoefficient (L := Examples.library) [Fin 0; Fin 2])
     == fst (GiniCoefficient (L := Examples.library) [Fin 0; Fin 1]))%D /\
  fst (GiniCoefficient (L := Examples.library)
         [Fin 3; Fin (27021597764222976 # 1)])
  = Fin (9007199254740989 # 18014398509481984) /\
  fst (GiniCoefficient (L := Examples.library)
         [Fin 1; Fin (9007199254740992 # 1)])
  = Fin (9007199254740991 # 18014398509481984).
Proof.
  vm_compute. split; [|split; reflexivity]. intros H. discriminate H.
Qed.

(* ========================================================================= *)
(** ** Background values of the input images *)
(* ========================================================================= *)

Lemma is_background_NaN (value : dbl) :
  is_background_value (Some NaN) value = IsNaN value.
Proof. destruct value; reflexivity. Qed.

Section InputBackground.
Context `{L : Library}.

Lemma Background_ReplacePadding (padding : dbl) (nvox : nat) (image : Image) :
  Background (ReplacePadding padding nvox image) = Some NaN.
Proof. reflexivity. Qed.

Lemma Background_Normalize (image : Image) (mode : NormalizationMode) :
  Background (Normalize image mode) = Background image.
Proof.
  unfold Normalize. destruct mode; try reflexivity;
    destruct (NormalizationParameters _ _ _) as [s t];
    destruct (neqb s one || neqb t zero); reflexivity.
Qed.

Lemma Background_NormalizeImages (normalization : NormalizationMode)
    (padding : dbl) (nvox : nat) (inputs : list Image) :
  Forall (fun image => Background image = Some NaN)
         (NormalizeImages normalization padding nvox inputs).
Proof.
  assert (H : Forall (fun image => Background image = Some NaN)
                     (map (ReplacePadding padding nvox) (map Read inputs))).
  { rewrite Forall_map. apply Forall_forall. intros image _.
    apply Background_ReplacePadding. }
  unfold NormalizeImages. destruct normalization; try exact H;
    rewrite Forall_map; (eapply Forall_impl; [|exact H]);
    intros image Hbg; rewrite Background_Normalize; exact Hbg.
Qed.

End InputBackground.

(* ========================================================================= *)
(** ** Compositing *)
(* ========================================================================= *)

Lemma forallb_background (images : list Image) (vox : nat) :
  forallb (fun image => IsBackground image vox) images
  = negb (existsb (fun image => IsForeground image vox) images).
Proof.
  induction images as [|image images IH]; simpl; auto.
  rewrite IH. unfold IsForeground. rewrite Bool.negb_orb, Bool.negb_involutive.
  reflexivity.
Qed.

Lemma output_background_is_background (mode : AggregationMode) :
  is_background_value (Some (OutputBackground mode)) (OutputBackground mode)
  = true.
Proof. destruct mode; vm_compute; reflexivity. Qed.

Lemma output_zero_is_foreground (mode : AggregationMode) :
  is_background_value (Some (OutputBackground mode)) zero = false.
Proof. destruct mode; vm_compute; reflexivity. Qed.

(** C1, amended.  When a padding value is given and the intersection flag is
    off, an output voxel is background exactly when every input image is
    background there, and foreground exactly when some input image is
    foreground there. *)
Theorem union_background_with_padding
    (mode : AggregationMode) (padding : dbl) (nvox : nat)
    (images : list Image) (vox : nat) :
  IsNaN padding = false -> (vox < nvox)%nat ->
  IsBackground (InitializeOutput mode padding false nvox images) vox
  = forallb (fun image => IsBackground image vox) images /\
  IsForeground (InitializeOutput mode padding false nvox images) vox
  = existsb (fun image => IsForeground image vox) images.
Proof.
  intros Hpad Hvox.
  assert (H : IsBackground (InitializeOutput mode padding false nvox images)
                           vox
              = negb (existsb (fun image => IsForeground image vox) images)).
  { unfold InitializeOutput, IsBackground, Get. rewrite Hpad.
    cbn [negb Data Background PutBackgroundValueAsDouble].
    rewrite (nth_for_each_voxel nvox _ vox Hvox).
    destruct (existsb _ images).
    - apply output_zero_is_foreground.
    - apply output_background_is_background. }
  split.
  - rewrite forallb_background. exact H.
  - unfold IsForeground at 1. rewrite H. apply Bool.negb_involutive.
Qed.

Lemma union_background_with_padding_witness :
  let images := [mkImage [Fin 1; NaN] (Some NaN);
                 mkImage [NaN; NaN] (Some NaN)] in
  IsBackground (InitializeOutput AM_Median zero false 2 images) 1
  = forallb (fun image => IsBackground image 1%nat) images /\
  IsForeground (InitializeOutput AM_Median zero false 2 images) 1
  = existsb (fun image => IsForeground image 1%nat) images.
Proof.
  apply (union_background_with_padding AM_Median zero 2).
  - reflexivity.
  - lia.
Defined.

(** C1 as stated fails when no padding value is given, which is the default:
    the compositing loop is skipped, and a voxel at which every input image
    is NaN, hence background, is foreground in the output. *)
Lemma union_without_padding_counterexample :
  let inputs := [Examples.image_of [NaN]; Examples.image_of [NaN]] in
  let images := [mkImage [NaN] (Some NaN); mkImage [NaN] (Some NaN)] in
  PrepareImages (L := Examples.library) AM_Median Normalization_None NaN 1
                inputs = Ok images /\
  forallb (fun image => IsBackground image 0%nat) images = true /\
  IsBackground (InitializeOutput AM_Median NaN false 1 images) 0 = false.
Proof. repeat split. Qed.

(** C3, amended.  With a padding value given and the intersection flag on, in
    the modes Mean, Median and StDev, no entry of the sample array of a
    foreground output voxel is NaN. *)
Theorem intersection_samples_are_numbers `{L : Library}
    (mode : AggregationMode) (normalization : NormalizationMode)
    (padding : dbl) (nvox : nat) (inputs images : list Image) (vox : nat) :
  In mode [AM_Mean; AM_Median; AM_StDev] ->
  IsNaN padding = false -> (vox < nvox)%nat ->
  PrepareImages mode normalization padding nvox inputs = Ok images ->
  IsForeground (InitializeOutput mode padding true nvox images) vox = true ->
  Forall (fun value => IsNaN value = false) (Values images vox).
Proof.
  intros Hmode Hpad Hvox Hprep Hfg.
  assert (Himages : images = NormalizeImages normalization padding nvox inputs).
  { unfold PrepareImages in Hprep.
    destruct Hmode as [<- | [<- | [<- | []]]]; simpl in Hprep; congruence. }
  assert (Hbg := Background_NormalizeImages normalization padding nvox inputs).
  rewrite <- Himages in Hbg. clear Himages Hprep.
  unfold IsForeground, IsBackground, InitializeOutput, Get in Hfg.
  rewrite Hpad in Hfg.
  cbn [negb Data Background PutBackgroundValueAsDouble] in Hfg.
  rewrite (nth_for_each_voxel nvox _ vox Hvox) in Hfg.
  destruct (existsb (fun image => IsBackground image vox) images) eqn:E.
  - rewrite output_background_is_background in Hfg. discriminate.
  - unfold Values. rewrite Forall_map. apply Forall_forall.
    intros image Hin.
    assert (Hb : IsBackground image vox = false).
    { destruct (IsBackground image vox) eqn:B; auto.
      assert (existsb (fun image => IsBackground image vox) images = true)
        by (apply existsb_exists; eauto).
      congruence. }
    rewrite Forall_forall in Hbg. unfold IsBackground in Hb.
    rewrite (Hbg image Hin), is_background_NaN in Hb. exact Hb.
Qed.

Lemma intersection_samples_are_numbers_witness :
  Forall (fun value => IsNaN value = false)
         (Values [mkImage [Fin 1; NaN] (Some NaN);
                  mkImage [Fin 2; Fin 3] (Some NaN)] 0).
Proof.
  apply (intersection_samples_are_numbers (L := Examples.library)
           AM_Mean Normalization_None zero 2
           [Examples.image_of [Fin 1; Fin 0];
            Examples.image_of [Fin 2; Fin 3]]).
  - left. reflexivity.
  - reflexivity.
  - lia.
  - reflexivity.
  - reflexivity.
Defined.

(** C3 as stated fails under the default union policy: with padding value 0,
    the voxel at which the first image holds 1 and the second the padding
    value is foreground in the output, and its sample array holds a NaN. *)
Lemma union_samples_counterexample :
  let inputs := [Examples.image_of [Fin 1]; Examples.image_of [Fin 0]] in
  let images := [mkImage [Fin 1] (Some NaN); mkImage [NaN] (Some NaN)] in
  PrepareImages (L := Examples.library) AM_Mean Normalization_None zero 1
                inputs = Ok images /\
  IsForeground (InitializeOutput AM_Mean zero false 1 images) 0 = true /\
  Values images 0 = [Fin 1; NaN].
Proof. repeat split. Qed.

(* ========================================================================= *)
(** ** Minima *)
(* ========================================================================= *)

(** [std::min_element] from a first element that is not NaN: the result is
    not NaN and not above any element. *)
Lemma min_element_lower_bound (rest : list dbl) :
  forall x, IsNaN x = false ->
  IsNaN (min_element x rest) = false /\
  not_above (min_element x rest) x /\
  Forall (not_above (min_element x rest)) rest.
Proof.
  unfold min_element.
  induction rest as [|y rest IH]; intros x Hx; cbn [fold_left].
  - repeat split; auto. apply ltb_irrefl.
  - set (c := if (y <? x)%D then y else x).
    assert (Hc : IsNaN c = false).
    { unfold c. destruct (y <? x)%D eqn:E; auto. eapply ltb_not_NaN, E. }
    assert (Hcx : not_above c x).
    { unfold c, not_above. destruct (y <? x)%D eqn:E.
      - apply ltb_asym, E.
      - apply ltb_irrefl. }
    assert (Hcy : not_above c y).
    { unfold c, not_above. destruct (y <? x)%D eqn:E.
      - apply ltb_irrefl.
      - exact E. }
    destruct (IH c Hc) as [Hm [Hmc Hrest]].
    split; [exact Hm|]. split.
    + exact (not_above_trans _ c _ Hc Hmc Hcx).
    + constructor; [|exact Hrest].
      exact (not_above_trans _ c _ Hc Hmc Hcy).
Qed.

Section Minimum.
Context `{L : Library}.

(** The running minimum of [minimum_over]: never NaN, and not above the
    [vmin] of any image. *)
Lemma minimum_over_lower_bound (images : list Image) :
  IsNaN (minimum_over images) = false /\
  Forall (fun image => not_above (minimum_over images)
                                 (fst (GetMinMax image))) images.
Proof.
  unfold minimum_over.
  assert (G : forall start, IsNaN start = false ->
    let final := fold_left (fun min_value image =>
                   let '(vmin, _) := GetMinMax image in
                   if (vmin <? min_value)%D then vmin else min_value)
                 images start in
    IsNaN final = false /\ not_above final start /\
    Forall (fun image => not_above final (fst (GetMinMax image))) images).
  { induction images as [|image images IH]; intros start Hstart;
      cbn [fold_left].
    - repeat split; auto. apply ltb_irrefl.
    - destruct (GetMinMax image) as [vmin vmax] eqn:E. cbn [fst].
      set (c := if (vmin <? start)%D then vmin else start).
      assert (Hc : IsNaN c = false).
      { unfold c. destruct (vmin <? start)%D eqn:F; auto.
        eapply ltb_not_NaN, F. }
      assert (Hcs : not_above c start).
      { unfold c, not_above. destruct (vmin <? start)%D eqn:F.
        - apply ltb_asym, F.
        - apply ltb_irrefl. }
      assert (Hcv : not_above c vmin).
      { unfold c, not_above. destruct (vmin <? start)%D eqn:F.
        - apply ltb_irrefl.
        - exact F. }
      destruct (IH c Hc) as [Hf [Hfc Hrest]].
      split; [exact Hf|]. split.
      + exact (not_above_trans _ c _ Hc Hfc Hcs).
      + constructor; [|exact Hrest]. rewrite E.
        exact (not_above_trans _ c _ Hc Hfc Hcv). }
  destruct (G inf eq_refl) as [H1 [_ H2]]. split; assumption.
Qed.

(** The [vmin] of [GetMinMax] is never NaN, and not above any foreground
    voxel. *)
Lemma GetMinMax_not_NaN (image : Image) :
  IsNaN (fst (GetMinMax image)) = false.
Proof.
  unfold GetMinMax. cbn [fst].
  apply (min_element_lower_bound (foreground_values image) PInf eq_refl).
Qed.

Lemma GetMinMax_lower_bound (image : Image) (vox : nat) :
  IsForeground image vox = true ->
  not_above (fst (GetMinMax image)) (Get image vox).
Proof.
  intros Hfg.
  destruct (Nat.lt_ge_cases vox (NumberOfVoxels image)) as [Hvox | Hvox].
  - assert (Hin : In (Get image vox) (foreground_values image)).
    { unfold foreground_values. apply in_map, filter_In. split; auto.
      apply in_seq. lia. }
    unfold GetMinMax. cbn [fst].
    destruct (min_element_lower_bound (foreground_values image) PInf eq_refl)
      as [_ [_ Hall]].
    rewrite Forall_forall in Hall. apply Hall, Hin.
  - unfold Get. rewrite nth_overflow by exact Hvox. unfold not_above.
    reflexivity.
Qed.

End Minimum.

(* ========================================================================= *)
(** ** The voxels are values of [RealPixel] *)
(* ========================================================================= *)

Section Typing.
Context `{L : Library}.

Lemma typed_Get (T : format) (image : Image) (vox : nat) :
  typed T image -> representable T (Get image vox).
Proof.
  intros H. unfold Get.
  destruct (Nat.lt_ge_cases vox (length (Data image))) as [Hvox | Hvox].
  - unfold typed in H. rewrite Forall_forall in H. apply H, nth_In, Hvox.
  - rewrite nth_overflow by exact Hvox. exact I.
Qed.

Lemma typed_for_each_voxel (T : format) (nvox : nat) (f : nat -> dbl)
    (bg : option dbl) :
  (forall vox, representable T (f vox)) ->
  typed T (mkImage (for_each_voxel nvox f) bg).
Proof.
  intros H. unfold typed, for_each_voxel. cbn [Data]. rewrite Forall_map.
  apply Forall_forall. intros vox _. apply H.
Qed.

Lemma typed_Read (file : Image) : typed InputType (Read file).
Proof.
  unfold typed, Read. cbn [Data]. rewrite Forall_map. apply Forall_forall.
  intros x _. apply cast_representable, InputType_precision.
Qed.

Lemma typed_ReplacePadding (T : format) (padding : dbl) (nvox : nat)
    (image : Image) :
  typed T image -> typed T (ReplacePadding padding nvox image).
Proof.
  intros H. unfold ReplacePadding. destruct (negb (IsNaN padding)).
  - apply (typed_for_each_voxel T nvox _ (Some NaN)). intros vox.
    destruct (Get image vox =? padding)%D; [exact I | apply typed_Get, H].
  - exact H.
Qed.

Lemma typed_Normalize (image : Image) (mode : NormalizationMode) :
  typed InputType image -> typed InputType (Normalize image mode).
Proof.
  intros H. unfold Normalize. destruct mode; try exact H;
    destruct (NormalizationParameters _ _ _) as [s t];
    destruct (neqb s one || neqb t zero); try exact H;
    apply typed_for_each_voxel; intros vox;
    destruct (nth vox _ false);
    try (apply typed_Get, H);
    apply cast_representable, InputType_precision.
Qed.

Lemma typed_NormalizeImages (normalization : NormalizationMode)
    (padding : dbl) (nvox : nat) (inputs : list Image) :
  Forall (typed InputType)
         (NormalizeImages normalization padding nvox inputs).
Proof.
  assert (H : Forall (typed InputType)
                     (map (ReplacePadding padding nvox) (map Read inputs))).
  { rewrite !Forall_map. apply Forall_forall. intros image _.
    apply typed_ReplacePadding, typed_Read. }
  unfold NormalizeImages. destruct normalization; try exact H;
    rewrite Forall_map; (eapply Forall_impl; [|exact H]);
    intros image Ht; apply typed_Normalize, Ht.
Qed.

Lemma GetMinMax_representable (T : format) (image : Image) :
  typed T image -> representable T (fst (GetMinMax image)).
Proof.
  intros H. unfold GetMinMax. cbn [fst].
  apply min_element_Forall; [exact I|].
  unfold foreground_values. rewrite Forall_map. apply Forall_forall.
  intros vox _. apply typed_Get, H.
Qed.

Lemma minimum_over_representable (T : format) (images : list Image) :
  Forall (typed T) images -> representable T (minimum_over images).
Proof.
  unfold minimum_over. generalize inf, (I : representable T inf).
  induction images as [|image images IH]; intros start Hstart Hall;
    cbn [fold_left]; [exact Hstart|].
  inversion Hall as [|? ? Himage Hrest]; subst.
  assert (Hmin := GetMinMax_representable T image Himage).
  destruct (GetMinMax image) as [vmin vmax]. cbn [fst] in Hmin.
  apply IH; [|exact Hrest]. destruct (vmin <? start)%D; assumption.
Qed.

End Typing.

(* ========================================================================= *)
(** ** The positive shift of the dispersion modes *)
(* ========================================================================= *)

Lemma Forall2_map_right {A B : Type} (R : A -> B -> Prop) (f : A -> B)
    (l : list A) :
  (forall a, In a l -> R a (f a)) -> Forall2 R l (map f l).
Proof.
  induction l as [|a l IH]; intros H; simpl; constructor.
  - apply H. left. reflexivity.
  - apply IH. intros b Hb. apply H. right. exact Hb.
Qed.

Lemma Forall2_In_right {A B : Type} (R : A -> B -> Prop)
    (l : list A) (l' : list B) (b : B) :
  Forall2 R l l' -> In b l' -> exists a, In a l /\ R a b.
Proof.
  induction 1 as [|x y l l' Hxy Hl IH]; intros Hin.
  - destruct Hin.
  - destruct Hin as [<- | Hin].
    + exists x. split; [left; reflexivity | exact Hxy].
    + destruct (IH Hin) as [a [Ha HR]]. exists a. split; [right|]; auto.
Qed.

Lemma Forall2_with_left {A B : Type} (P : A -> Prop) (R : A -> B -> Prop)
    (l : list A) (l' : list B) :
  Forall P l -> Forall2 R l l' -> Forall2 (fun a b => P a /\ R a b) l l'.
Proof.
  intros HP HR. induction HR as [|x y l l' Hxy Hl IH]; constructor.
  - inversion HP; auto.
  - apply IH. inversion HP; assumption.
Qed.

(** A value of a format less an amount that is not negative, the difference
    taken in that format, is not above the value. *)
Lemma less_not_above (f : format) (x : dbl) (c : Q) :
  0 < precision f -> representable f x -> (0 <= c)%Q ->
  not_above (sub_in f x (Fin c)) x.
Proof.
  intros Hf Hx Hc. unfold not_above, sub_in, add_in.
  destruct x as [| | |m]; try reflexivity. cbn [neg exact_add cast].
  cbn [representable] in Hx.
  assert (M := round_mono f Hf (m + - c) m ltac:(lra)).
  rewrite (round_exact f Hf m Hx) in M.
  unfold not_above in M. destruct (round f (m + - c)) as [| | |u];
    try reflexivity; try discriminate.
  apply (proj1 (ltb_Fin_false (Qred m) u)) in M. apply (ltb_Fin_false m u).
  rewrite Qred_correct in M. exact M.
Qed.

(** A [double] less one is not above it. *)
Lemma less_one_not_above (m : Q) :
  in_format binary64 m -> not_above (Fin m - one)%D (Fin m).
Proof.
  intros Hm. apply (less_not_above binary64 (Fin m) 1 eq_refl Hm).
  discriminate.
Qed.

(** The difference of a number and one that is not above it, taken in a
    format, is [+inf] or a number that is not negative, rounded. *)
Lemma sub_in_cases (g : format) (v low : dbl) (m : Q) :
  IsNaN v = false -> IsNaN low = false ->
  not_above (Fin m) v -> not_above low (Fin m) ->
  sub_in g v low = PInf \/
  exists d, sub_in g v low = round g d /\ (0 <= d)%Q.
Proof.
  unfold not_above, sub_in, add_in. intros Hv Hl Hmv Hlow.
  destruct v as [| | |q], low as [| | |u]; try discriminate;
    cbn [neg exact_add cast]; auto.
  right. exists (q + - u)%Q. split; [reflexivity|].
  apply (proj1 (ltb_Fin_false q m)) in Hmv.
  apply (proj1 (ltb_Fin_false m u)) in Hlow. lra.
Qed.

Lemma sub_in_not_negative (g : format) (v low : dbl) (m : Q) :
  IsNaN v = false -> IsNaN low = false ->
  not_above (Fin m) v -> not_above low (Fin m) ->
  (sub_in g v low <? zero)%D = false /\
  IsNaN (sub_in g v low) = false /\
  canonical (sub_in g v low).
Proof.
  intros Hv Hl Hmv Hlow.
  destruct (sub_in_cases g v low m Hv Hl Hmv Hlow) as [-> | [d [-> Hd]]].
  - repeat split.
  - split; [exact (round_nonneg g d Hd)|].
    split; [apply round_not_NaN | apply round_canonical].
Qed.

(** The same difference, taken in [double] and stored in a format: not
    negative, not NaN, and in lowest terms. *)
Lemma difference_not_negative (f : format) (v low : dbl) (m : Q) :
  0 < precision f ->
  IsNaN v = false -> IsNaN low = false ->
  not_above (Fin m) v -> not_above low (Fin m) ->
  (cast f (v - low) <? zero)%D = false /\
  IsNaN (cast f (v - low)) = false /\
  canonical (cast f (v - low)).
Proof.
  intros Hf Hv Hl Hmv Hlow.
  destruct (sub_in_cases binary64 v low m Hv Hl Hmv Hlow)
    as [D | [d [D Hd]]]; change (sub_in binary64 v low) with (v - low)%D in D;
    rewrite D.
  - repeat split.
  - assert (N := round_nonneg binary64 d Hd).
    assert (C := cast_mono f Hf _ _ N). cbn [cast] in C.
    change (round f 0) with zero in C.
    split; [exact C|]. split.
    + rewrite (cast_not_NaN f). apply round_not_NaN.
    + destruct (round binary64 d); try exact I. apply round_canonical.
Qed.

Section PositiveShift.
Context `{L : Library}.

Lemma MakePositive_shifted (nvox : nat) (images after : list Image) :
  Forall (fun image => Background image = Some NaN) images ->
  Forall (typed InputType) images ->
  MakePositive nvox images = Ok after ->
  Forall2 (shifted nvox) images after.
Proof.
  intros Hbg Htyped Hmake. unfold MakePositive in Hmake.
  destruct (minimum_over_lower_bound images) as [Hnan Hlow].
  assert (Hrep := InputType_in_double _
                    (minimum_over_representable InputType images Htyped)).
  destruct (minimum_over images) as [| | |m] eqn:Hmin; try discriminate.
  cbn [IsInf] in Hmake. injection Hmake as <-.
  cbn [representable] in Hrep.
  apply Forall2_map_right. intros image Hin.
  rewrite Forall_forall in Hbg, Hlow.
  split; [reflexivity|]. intros vox Hvox.
  match goal with
  | |- context [Get (PutBackgroundValueAsDouble ?a ?z) vox] =>
      assert (Hget : Get (PutBackgroundValueAsDouble a z) vox
                     = if IsForeground image vox
                       then cast InputType (Get image vox - (Fin m - one))%D
                       else zero)
        by (unfold Get at 1; cbn [Data PutBackgroundValueAsDouble];
            rewrite (nth_for_each_voxel nvox _ vox Hvox); reflexivity);
      rewrite !Hget
  end.
  split.
  - intros Hfg. rewrite Hfg.
    assert (Hvmin := GetMinMax_not_NaN image).
    assert (Hv := GetMinMax_lower_bound image vox Hfg).
    assert (Hm := not_above_trans _ _ _ Hvmin (Hlow _ Hin) Hv).
    apply (difference_not_negative InputType _ _ m InputType_precision).
    + unfold IsForeground, IsBackground in Hfg.
      rewrite (Hbg _ Hin), is_background_NaN in Hfg.
      destruct (IsNaN (Get image vox)); [discriminate | reflexivity].
    + unfold sub, add, add_in, one. cbn [neg exact_add cast].
      apply round_not_NaN.
    + exact Hm.
    + apply less_one_not_above, Hrep.
  - intros Hb. unfold IsForeground. rewrite Hb. reflexivity.
Qed.


Lemma background_zero_is_zero (value : dbl) :
  is_background_value (Some zero) value = true -> (value == zero)%D.
Proof.
  destruct value as [| | |q]; try discriminate. simpl.
  rewrite Bool.orb_false_r. apply Qeq_bool_iff.
Qed.

Lemma PrepareImages_shifted (mode : AggregationMode)
    (normalization : NormalizationMode) (padding : dbl) (nvox : nat)
    (inputs images : list Image) :
  is_dispersion mode = true ->
  PrepareImages mode normalization padding nvox inputs = Ok images ->
  Forall2 (shifted nvox)
          (NormalizeImages normalization padding nvox inputs) images.
Proof.
  intros Hmode Hprep. unfold PrepareImages in Hprep. rewrite Hmode in Hprep.
  apply MakePositive_shifted; [| |exact Hprep].
  - apply Background_NormalizeImages.
  - apply typed_NormalizeImages.
Qed.


(** C10.  In the modes Gini, Theil and EntropyIndex the shift leaves every
    input image, whose background value was NaN, with the background value 0
    and with 0 at every voxel that was background; so at a voxel that is
    foreground in the output under the union policy, each input image that is
    background there puts 0 into the sample array. *)
Theorem background_is_zero_after_shift
    (mode : AggregationMode) (normalization : NormalizationMode)
    (padding : dbl) (nvox : nat) (inputs images : list Image) :
  is_dispersion mode = true ->
  PrepareImages mode normalization padding nvox inputs = Ok images ->
  Forall2 (fun before after =>
             Background before = Some NaN /\
             Background after = Some zero /\
             forall vox, (vox < nvox)%nat ->
               IsBackground before vox = true -> Get after vox = zero)
          (NormalizeImages normalization padding nvox inputs) images /\
  forall vox, (vox < nvox)%nat ->
    IsForeground (InitializeOutput mode padding false nvox images) vox = true ->
    Forall2 (fun image value => IsBackground image vox = true -> value = zero)
            images (Values images vox).
Proof.
  intros Hmode Hprep.
  assert (Hsh := PrepareImages_shifted _ _ _ _ _ _ Hmode Hprep).
  assert (Hbg := Background_NormalizeImages normalization padding nvox inputs).
  split.
  - apply (Forall2_with_left _ _ _ _ Hbg) in Hsh.
    eapply Forall2_impl; [|exact Hsh].
    intros before after [Hb [Ha Hv]]. split; [exact Hb|]. split; [exact Ha|].
    intros vox Hvox. apply (Hv vox Hvox).
  - intros vox Hvox _. unfold Values. apply Forall2_map_right.
    intros image Hin Hb.
    destruct (Forall2_In_right _ _ _ _ Hsh Hin) as [before [_ [Ha Hv]]].
    destruct (Hv vox Hvox) as [Hpos Hzero].
    destruct (IsBackground before vox) eqn:E.
    + apply Hzero. reflexivity.
    + unfold IsBackground in Hb. rewrite Ha in Hb.
      apply background_zero_is_zero in Hb.
      assert (Hfg : IsForeground before vox = true)
        by (unfold IsForeground; rewrite E; reflexivity).
      destruct (Hpos Hfg) as [_ [_ Hcanon]].
      apply canonical_zero; assumption.
Qed.

End PositiveShift.


Lemma background_is_zero_after_shift_witness :
  let before := [mkImage [NaN; Fin 3] (Some NaN);
                 mkImage [Fin 4; Fin 2] (Some NaN)] in
  let images := [mkImage [Fin 0; Fin 2] (Some zero);
                 mkImage [Fin 3; Fin 1] (Some zero)] in
  Forall2 (fun before after =>
             Background before = Some NaN /\
             Background after = Some zero /\
             forall vox, (vox < 2)%nat ->
               IsBackground before vox = true -> Get after vox = zero)
          before images /\
  forall vox, (vox < 2)%nat ->
    IsForeground (InitializeOutput AM_Gini zero false 2 images) vox = true ->
    Forall2 (fun image value => IsBackground image vox = true -> value = zero)
            images (Values images vox).
Proof.
  apply (background_is_zero_after_shift (L := Examples.library)
           AM_Gini Normalization_None zero 2
           [Examples.image_of [Fin 0; Fin 3];
            Examples.image_of [Fin 4; Fin 2]]).
  - reflexivity.
  - vm_compute. reflexivity.
Defined.


(* ========================================================================= *)
(** ** The NaN post-pass *)
(* ========================================================================= *)

Lemma IsNaN_sub_milli (x : dbl) : IsNaN (x - milli) = IsNaN x.
Proof.
  destruct milli_finite as [q ->]. unfold sub, add, add_in.
  rewrite (cast_not_NaN binary64). destruct x; reflexivity.
Qed.

Lemma ReplaceNaNs_voxel (output : Image) (nvox vox : nat) :
  (vox < nvox)%nat ->
  Get (ReplaceNaNs output nvox) vox
  = if IsNaN (Get output vox)
    then cast OutputType (fst (GetMinMax output) - milli)%D
    else Get output vox.
Proof.
  intros Hvox. unfold ReplaceNaNs.
  destruct (GetMinMax output) as [omin omax]. unfold Get at 1. cbn [Data fst].
  rewrite (nth_for_each_voxel nvox _ vox Hvox). reflexivity.
Qed.

(** What the post-pass leaves at a voxel is not NaN. *)
Lemma ReplaceNaNs_not_NaN (output : Image) (nvox vox : nat) :
  (vox < nvox)%nat -> IsNaN (Get (ReplaceNaNs output nvox) vox) = false.
Proof.
  intros Hvox. rewrite (ReplaceNaNs_voxel _ _ _ Hvox).
  destruct (IsNaN (Get output vox)) eqn:E; [|exact E].
  rewrite (cast_not_NaN OutputType), IsNaN_sub_milli.
  apply GetMinMax_not_NaN.
Qed.

(** C9.  The post-pass takes the minimum of the output, subtracts [1e-3] and
    puts the result at every voxel that holds NaN, leaving the other voxels
    as they are; the image written holds no NaN. *)
Theorem final_output_without_NaN `{L : Library}
    (mode : AggregationMode) (normalization : NormalizationMode)
    (alpha bins : Z) (parzen : bool) (padding : dbl) (intersection : bool)
    (inputs : list Image) (final : Image) :
  main mode normalization alpha bins parzen padding intersection inputs
  = Ok final ->
  exists output,
    Aggregate mode normalization alpha bins parzen padding intersection
              (NumberOfVoxels final) inputs = Ok output /\
    final = ReplaceNaNs output (NumberOfVoxels final) /\
    (forall vox, (vox < NumberOfVoxels final)%nat ->
       Get final vox
       = if IsNaN (Get output vox)
         then cast OutputType (fst (GetMinMax output) - milli)%D
         else Get output vox) /\
    (forall vox, (vox < NumberOfVoxels final)%nat ->
       IsNaN (Get final vox) = false).
Proof.
  intros Hmain. unfold main in Hmain.
  destruct inputs as [|first [|second rest]]; try discriminate.
  set (nvox := NumberOfVoxels first) in *.
  destruct (forallb _ _); try discriminate.
  destruct (Aggregate _ _ _ _ _ _ _ nvox _) as [output|e] eqn:Hagg;
    try discriminate.
  cbn [bind] in Hmain. injection Hmain as <-.
  assert (Hlen : NumberOfVoxels (ReplaceNaNs output nvox) = nvox).
  { unfold ReplaceNaNs, NumberOfVoxels.
    destruct (GetMinMax output). cbn [Data]. apply length_for_each_voxel. }
  rewrite Hlen. exists output. split; [exact Hagg|]. split; [reflexivity|].
  split.
  - intros vox Hvox. apply ReplaceNaNs_voxel, Hvox.
  - intros vox Hvox. apply ReplaceNaNs_not_NaN, Hvox.
Qed.

Lemma final_output_without_NaN_witness :
  exists output,
    Aggregate (L := Examples.library) AM_Median Normalization_None 0 64 false
              NaN false 2
              [Examples.image_of [Fin 1; NaN];
               Examples.image_of [Fin 3; NaN]] = Ok output /\
    mkImage [Fin 3; Fin (6289359 # 2097152)] (Some (cast OutputType milli))
    = ReplaceNaNs output 2 /\
    (forall vox, (vox < 2)%nat ->
       Get (mkImage [Fin 3; Fin (6289359 # 2097152)]
                    (Some (cast OutputType milli))) vox
       = if IsNaN (Get output vox)
         then cast OutputType
                (fst (GetMinMax output) - milli)%D
         else Get output vox) /\
    (forall vox, (vox < 2)%nat ->
       IsNaN (Get (mkImage [Fin 3; Fin (6289359 # 2097152)]
                           (Some (cast OutputType milli))) vox) = false).
Proof.
  apply (final_output_without_NaN (L := Examples.library)
           AM_Median Normalization_None 0 64 false NaN false
           [Examples.image_of [Fin 1; NaN];
            Examples.image_of [Fin 3; NaN]]
           (mkImage [Fin 3; Fin (6289359 # 2097152)]
                    (Some (cast OutputType milli)))).
  vm_compute. reflexivity.
Defined.

(* ========================================================================= *)
(** ** Z-score normalisation *)
(* ========================================================================= *)

Lemma nth_ForegroundMaskArray (image : Image) (i : nat) :
  (i < NumberOfVoxels image)%nat ->
  nth i (ForegroundMaskArray image) false
  = negb (IsNaN (Get image i)) && IsForeground image i.
Proof.
  intros H. unfold ForegroundMaskArray.
  set (f := fun i => negb (IsNaN (Get image i)) && IsForeground image i).
  rewrite (nth_indep _ false (f 0%nat))
    by (rewrite length_map, length_seq; exact H).
  rewrite map_nth, seq_nth by exact H. reflexivity.
Qed.

(** C2.  An image whose foreground is constant, here 5 at both foreground
    voxels: the standard deviation is 0, which [fequal] takes for zero, and
    that is the branch which divides by it.  The scale is [1 / 0 = inf] and
    the offset [-5 / 0 = -inf], not [-5]; every foreground voxel becomes
    [inf * 5 - inf], which is NaN. *)
Theorem ZScore_of_constant_image :
  let image := mkImage [Fin 5; Fin 5; NaN] (Some NaN) in
  NormalDistribution_Calculate (Library := Examples.library)
    (Data image) (ForegroundMaskArray image) = (Fin 5, Fin 0) /\
  fequal (L := Examples.library) (Fin 0) zero = true /\
  NormalizationParameters (L := Examples.library) Normalization_ZScore
    (Data image) (ForegroundMaskArray image) = (PInf, NInf) /\
  ~ (NInf == - Fin 5)%D /\
  Normalize (L := Examples.library) image Normalization_ZScore
  = mkImage [NaN; NaN; NaN] (Some NaN).
Proof.
  vm_compute. repeat split. intros H. exact H.
Qed.

(* ========================================================================= *)
(** ** Normalisation, all modes *)
(* ========================================================================= *)

Lemma NumberOfVoxels_Normalize `{L : Library}
    (image : Image) (mode : NormalizationMode) :
  NumberOfVoxels (Normalize image mode) = NumberOfVoxels image.
Proof.
  unfold Normalize. destruct mode; try reflexivity;
    destruct (NormalizationParameters _ _ _) as [s t];
    destruct (neqb s one || neqb t zero); try reflexivity;
    unfold NumberOfVoxels at 1; cbn [Data]; apply length_for_each_voxel.
Qed.

(** What [Normalize] leaves at voxel [i], in terms of the scale and offset. *)
Lemma Normalize_voxel `{L : Library}
    (image : Image) (mode : NormalizationMode) (i : nat) (s t : dbl) :
  mode <> Normalization_None ->
  NormalizationParameters mode (Data image) (ForegroundMaskArray image)
  = (s, t) ->
  (i < NumberOfVoxels image)%nat ->
  Get (Normalize image mode) i
  = if neqb s one || neqb t zero
    then if nth i (ForegroundMaskArray image) false
         then cast InputType (s * Get image i + t)%D else Get image i
    else Get image i.
Proof.
  intros Hmode Hparams Hi. unfold Normalize.
  destruct mode; try congruence; rewrite Hparams;
    destruct (neqb s one || neqb t zero); try reflexivity;
    unfold Get at 1; cbn [Data];
    rewrite (nth_for_each_voxel _ _ i Hi); reflexivity.
Qed.

(** X1.  Whatever the mode, [Normalize] keeps the number of voxels and the
    background value of the image, and does not touch a voxel outside the
    foreground mask: a voxel that is NaN or background keeps its value. *)
Theorem Normalize_keeps_voxels_off_the_mask `{L : Library}
    (image : Image) (mode : NormalizationMode) (i : nat) :
  nth i (ForegroundMaskArray image) false = false ->
  NumberOfVoxels (Normalize image mode) = NumberOfVoxels image /\
  Background (Normalize image mode) = Background image /\
  Get (Normalize image mode) i = Get image i.
Proof.
  intros Hmask. split; [apply NumberOfVoxels_Normalize|].
  split; [apply Background_Normalize|].
  destruct (Nat.lt_ge_cases i (NumberOfVoxels image)) as [Hi | Hi].
  - destruct (NormalizationParameters mode (Data image)
                (ForegroundMaskArray image)) as [s t] eqn:E.
    destruct mode; try reflexivity;
      rewrite (Normalize_voxel image _ i s t) by (congruence || assumption);
      rewrite Hmask; destruct (neqb s one || neqb t zero); reflexivity.
  - unfold Get. rewrite !nth_overflow; auto.
    fold (NumberOfVoxels (Normalize image mode)).
    rewrite NumberOfVoxels_Normalize. exact Hi.
Qed.

Lemma Normalize_keeps_voxels_off_the_mask_witness :
  let image := mkImage [Fin 1; NaN; Fin 3] (Some NaN) in
  NumberOfVoxels (Normalize (L := Examples.library) image
                            Normalization_UnitRange) = NumberOfVoxels image /\
  Background (Normalize (L := Examples.library) image Normalization_UnitRange)
  = Background image /\
  Get (Normalize (L := Examples.library) image Normalization_UnitRange) 1
  = Get image 1.
Proof.
  apply (Normalize_keeps_voxels_off_the_mask (L := Examples.library)
           (mkImage [Fin 1; NaN; Fin 3] (Some NaN))
           Normalization_UnitRange 1).
  reflexivity.
Defined.

(** A scale equal to 1 and an offset equal to 0 leave a value of
    [RealPixel] as it is. *)
Lemma affine_identity `{L : Library} (s t value : dbl) :
  (s =? one)%D = true -> (t =? zero)%D = true -> IsNaN value = false ->
  representable InputType value ->
  (value == cast InputType (s * value + t))%D.
Proof.
  destruct s as [| | |a]; try discriminate.
  destruct t as [| | |b]; try discriminate.
  intros Ha Hb Hv Hrep. apply eqb_Fin in Ha. apply eqb_Fin in Hb.
  assert (Hpos : (a ?= 0)%Q = Gt).
  { apply (proj1 (Qgt_alt _ _)). rewrite Ha. reflexivity. }
  unfold mul, mul_in, add, add_in.
  destruct value as [| | |q]; try discriminate.
  - cbn [exact_mul]. unfold inf_times. rewrite Hpos. exact I.
  - cbn [exact_mul]. unfold inf_times. rewrite Hpos. exact I.
  - cbn [exact_mul cast].
    assert (Hd := InputType_in_double _ Hrep). cbn [representable] in *.
    assert (E1 : (a * q == q)%Q) by (rewrite Ha; ring).
    rewrite (round_comp binary64 _ _ E1), (round_exact binary64 eq_refl q Hd).
    cbn [exact_add cast].
    assert (E2 : (Qred q + b == q)%Q) by (rewrite Hb, Qred_correct; ring).
    rewrite (round_comp binary64 _ _ E2), (round_exact binary64 eq_refl q Hd).
    cbn [cast].
    rewrite (round_comp InputType _ _ (Qred_correct q)).
    rewrite (round_exact InputType InputType_precision q Hrep).
    simpl. symmetry. apply Qred_correct.
Qed.

(** X2.  Whatever the mode, a voxel of the foreground mask, a value of
    [RealPixel], ends up holding [s * value + t] as a [RealPixel], for the
    scale [s] and offset [t] the mode arrives at (also when both are trivial
    and the loop is skipped). *)
Theorem Normalize_is_affine_on_the_mask `{L : Library}
    (image : Image) (mode : NormalizationMode) (i : nat) (s t : dbl) :
  NormalizationParameters mode (Data image) (ForegroundMaskArray image)
  = (s, t) ->
  (i < NumberOfVoxels image)%nat ->
  nth i (ForegroundMaskArray image) false = true ->
  representable InputType (Get image i) ->
  (Get (Normalize image mode) i == cast InputType (s * Get image i + t))%D.
Proof.
  intros Hparams Hi Hmask Hrep.
  assert (Hnum : IsNaN (Get image i) = false).
  { rewrite (nth_ForegroundMaskArray image i Hi) in Hmask.
    apply Bool.andb_true_iff in Hmask. destruct Hmask as [Hnum _].
    apply Bool.negb_true_iff in Hnum. exact Hnum. }
  destruct mode;
    [cbn in Hparams; injection Hparams as <- <-;
     apply affine_identity; auto
    | ..];
    rewrite (Normalize_voxel image _ i s t) by (congruence || assumption);
    rewrite Hmask; destruct (neqb s one || neqb t zero) eqn:E;
    try apply same_refl;
    apply Bool.orb_false_iff in E; destruct E as [Es Et];
    unfold neqb in Es, Et; apply Bool.negb_false_iff in Es, Et;
    apply affine_identity; auto.
Qed.

Lemma Normalize_is_affine_on_the_mask_witness :
  let image := mkImage [Fin 2; NaN; Fin 4] (Some NaN) in
  (Get (Normalize (L := Examples.library) image Normalization_Mean) 2
   == cast (InputType (L := Examples.library))
           (one / Fin 3 * Get image 2 + zero))%D.
Proof.
  apply (Normalize_is_affine_on_the_mask (L := Examples.library)
           (mkImage [Fin 2; NaN; Fin 4] (Some NaN)) Normalization_Mean 2).
  - vm_compute. reflexivity.
  - unfold NumberOfVoxels. simpl. lia.
  - reflexivity.
  - exists 4, 0. vm_compute. repeat split; discriminate.
Defined.

(* ========================================================================= *)
(** ** Padding and compositing, the other cases *)
(* ========================================================================= *)

(** X5.  After the padding step a voxel is background exactly when it held the
    padding value or NaN, and a voxel that is foreground holds what it held
    before; the image has the background value NaN. *)
Theorem ReplacePadding_background
    (padding : dbl) (nvox : nat) (image : Image) (vox : nat) :
  (vox < nvox)%nat ->
  Background (ReplacePadding padding nvox image) = Some NaN /\
  IsBackground (ReplacePadding padding nvox image) vox
  = (Get image vox =? padding)%D || IsNaN (Get image vox) /\
  (IsForeground (ReplacePadding padding nvox image) vox = true ->
   Get (ReplacePadding padding nvox image) vox = Get image vox).
Proof.
  intros Hvox. split; [reflexivity|].
  unfold IsForeground, IsBackground. rewrite Background_ReplacePadding.
  rewrite is_background_NaN.
  assert (Hget : Get (ReplacePadding padding nvox image) vox
                 = if negb (IsNaN padding)
                   then if (Get image vox =? padding)%D then NaN
                        else Get image vox
                   else Get image vox).
  { unfold ReplacePadding. destruct (negb (IsNaN padding)); [|reflexivity].
    unfold Get at 1. cbn [Data PutBackgroundValueAsDouble].
    rewrite (nth_for_each_voxel nvox _ vox Hvox). reflexivity. }
  rewrite Hget. destruct (negb (IsNaN padding)) eqn:P.
  - destruct (Get image vox =? padding)%D; cbn [IsNaN negb orb].
    + split; [reflexivity | discriminate].
    + split; reflexivity.
  - assert (E : (Get image vox =? padding)%D = false).
    { destruct padding; try discriminate. destruct (Get image vox); reflexivity. }
    rewrite E. split; reflexivity.
Qed.

Lemma ReplacePadding_background_witness :
  Background (ReplacePadding zero 2 (mkImage [Fin 0; Fin 5] None))
  = Some NaN /\
  IsBackground (ReplacePadding zero 2 (mkImage [Fin 0; Fin 5] None)) 1
  = (Get (mkImage [Fin 0; Fin 5] None) 1 =? zero)%D
    || IsNaN (Get (mkImage [Fin 0; Fin 5] None) 1) /\
  (IsForeground (ReplacePadding zero 2 (mkImage [Fin 0; Fin 5] None)) 1
   = true ->
   Get (ReplacePadding zero 2 (mkImage [Fin 0; Fin 5] None)) 1
   = Get (mkImage [Fin 0; Fin 5] None) 1).
Proof.
  apply (ReplacePadding_background zero 2 (mkImage [Fin 0; Fin 5] None) 1).
  lia.
Defined.

Lemma Get_InitializeOutput (mode : AggregationMode) (padding : dbl)
    (intersection : bool) (nvox : nat) (images : list Image) (vox : nat) :
  (vox < nvox)%nat ->
  Get (InitializeOutput mode padding intersection nvox images) vox
  = if negb (IsNaN padding) then
      if intersection then
        if existsb (fun image => IsBackground image vox) images
        then OutputBackground mode else zero
      else
        if existsb (fun image => IsForeground image vox) images
        then zero else OutputBackground mode
    else zero.
Proof.
  intros Hvox. unfold InitializeOutput, Get.
  destruct (negb (IsNaN padding)); [destruct intersection|];
    cbn [Data PutBackgroundValueAsDouble].
  - rewrite (nth_for_each_voxel nvox _ vox Hvox). reflexivity.
  - rewrite (nth_for_each_voxel nvox _ vox Hvox). reflexivity.
  - apply nth_repeat_lt. exact Hvox.
Qed.

Lemma IsBackground_InitializeOutput (mode : AggregationMode) (padding : dbl)
    (intersection : bool) (nvox : nat) (images : list Image) (vox : nat) :
  (vox < nvox)%nat ->
  IsBackground (InitializeOutput mode padding intersection nvox images) vox
  = negb (IsNaN padding) &&
    if intersection
    then existsb (fun image => IsBackground image vox) images
    else negb (existsb (fun image => IsForeground image vox) images).
Proof.
  intros Hvox. unfold IsBackground.
  rewrite (Get_InitializeOutput _ _ _ _ _ _ Hvox).
  change (Background (InitializeOutput mode padding intersection nvox images))
    with (Some (OutputBackground mode)).
  destruct (negb (IsNaN padding)); cbn [andb].
  - destruct intersection; destruct (existsb _ images); cbn [negb];
      auto using output_zero_is_foreground, output_background_is_background.
  - apply output_zero_is_foreground.
Qed.

(** X6.  With a padding value given and the intersection flag on, an output
    voxel is background exactly when some input image is background there. *)
Theorem intersection_background_with_padding
    (mode : AggregationMode) (padding : dbl) (nvox : nat)
    (images : list Image) (vox : nat) :
  IsNaN padding = false -> (vox < nvox)%nat ->
  IsBackground (InitializeOutput mode padding true nvox images) vox
  = existsb (fun image => IsBackground image vox) images.
Proof.
  intros Hpad Hvox. rewrite (IsBackground_InitializeOutput _ _ _ _ _ _ Hvox).
  rewrite Hpad. reflexivity.
Qed.

Lemma intersection_background_with_padding_witness :
  let images := [mkImage [Fin 1; NaN] (Some NaN);
                 mkImage [Fin 2; Fin 3] (Some NaN)] in
  IsBackground (InitializeOutput AM_StDev zero true 2 images) 1
  = existsb (fun image => IsBackground image 1%nat) images.
Proof.
  apply (intersection_background_with_padding AM_StDev zero 2).
  - reflexivity.
  - lia.
Defined.

(** X7.  Without a padding value no voxel of the output is background,
    whatever the mode, the flag and the images: every voxel is attempted. *)
Theorem no_padding_all_foreground
    (mode : AggregationMode) (intersection : bool) (nvox : nat)
    (images : list Image) (vox : nat) :
  (vox < nvox)%nat ->
  IsForeground (InitializeOutput mode NaN intersection nvox images) vox = true.
Proof.
  intros Hvox. unfold IsForeground.
  rewrite (IsBackground_InitializeOutput _ _ _ _ _ _ Hvox). reflexivity.
Qed.

Lemma no_padding_all_foreground_witness :
  IsForeground (InitializeOutput AM_Mean NaN true 1
                  [mkImage [NaN] (Some NaN)]) 0 = true.
Proof.
  apply (no_padding_all_foreground AM_Mean true 1 [mkImage [NaN] (Some NaN)] 0).
  lia.
Defined.

(** X8.  With at least one input image, a voxel that is foreground under the
    intersection policy is foreground under the union policy, for the same
    mode, padding value and images. *)
Theorem intersection_within_union
    (mode : AggregationMode) (padding : dbl) (nvox : nat)
    (images : list Image) (vox : nat) :
  images <> [] -> (vox < nvox)%nat ->
  IsForeground (InitializeOutput mode padding true nvox images) vox = true ->
  IsForeground (InitializeOutput mode padding false nvox images) vox = true.
Proof.
  intros Hne Hvox. unfold IsForeground.
  rewrite !(IsBackground_InitializeOutput _ _ _ _ _ _ Hvox).
  destruct (negb (IsNaN padding)); [|reflexivity]. cbn [andb].
  destruct images as [|image images]; [congruence|]. cbn [existsb].
  unfold IsForeground. destruct (IsBackground image vox); cbn; auto.
  discriminate.
Qed.

Lemma intersection_within_union_witness :
  let images := [mkImage [Fin 1; NaN] (Some NaN);
                 mkImage [Fin 2; Fin 3] (Some NaN)] in
  IsForeground (InitializeOutput AM_Gini zero false 2 images) 0 = true.
Proof.
  apply (intersection_within_union AM_Gini zero 2
           [mkImage [Fin 1; NaN] (Some NaN);
            mkImage [Fin 2; Fin 3] (Some NaN)] 0).
  - discriminate.
  - lia.
  - reflexivity.
Defined.

(* ========================================================================= *)
(** ** The aggregation loop *)
(* ========================================================================= *)

Lemma mapM_Ok {A B : Type} (f : A -> result B) (l : list A) (ys : list B) :
  mapM f l = Ok ys -> Forall2 (fun x y => f x = Ok y) l ys.
Proof.
  revert ys. induction l as [|a l IH]; intros ys H; simpl in H.
  - injection H as <-. constructor.
  - destruct (f a) as [b|e] eqn:E; [|discriminate]. cbn [bind] in H.
    destruct (mapM f l) as [bs|e]; [|discriminate]. cbn [bind] in H.
    injection H as <-. constructor; auto.
Qed.

Lemma mapM_Error {A B : Type} (f : A -> result B) (l : list A) (e : error) :
  mapM f l = Error e -> exists x, In x l /\ f x = Error e.
Proof.
  induction l as [|a l IH]; intros H; simpl in H; [discriminate|].
  destruct (f a) as [b|e'] eqn:E; cbn [bind] in H.
  - destruct (mapM f l) as [bs|e'']; cbn [bind] in H; [discriminate|].
    injection H as ->. destruct (IH eq_refl) as [x [Hin Hx]].
    exists x. split; [right|]; assumption.
  - injection H as ->. exists a. split; [left; reflexivity | exact E].
Qed.

(** When every failure of [f] is the error [e], one failing element makes
    [mapM] fail with [e]. *)
Lemma mapM_fails {A B : Type} (f : A -> result B) (l : list A) (e : error)
    (x : A) :
  (forall y e', f y = Error e' -> e' = e) ->
  In x l -> f x = Error e -> mapM f l = Error e.
Proof.
  intros Hone. induction l as [|a l IH]; intros Hin Hx; [destruct Hin|].
  simpl. destruct (f a) as [b|e'] eqn:E; cbn [bind].
  - destruct Hin as [-> | Hin]; [congruence|].
    rewrite (IH Hin Hx). reflexivity.
  - rewrite (Hone a e' E). reflexivity.
Qed.

Lemma Forall2_nth {A B : Type} (R : A -> B -> Prop) (l : list A)
    (l' : list B) (i : nat) (a : A) (b : B) :
  Forall2 R l l' -> (i < length l)%nat -> R (nth i l a) (nth i l' b).
Proof.
  intros H. revert i. induction H as [|x y l l' Hxy Hl IH]; intros i Hi.
  - inversion Hi.
  - destruct i as [|i]; [exact Hxy|]. simpl. apply IH. simpl in Hi. lia.
Qed.

(** X11.  When the aggregation loop succeeds, the output keeps its size and
    background value; a voxel that was foreground holds what the aggregation
    function returned for its sample array, and a voxel that was background
    holds what it held. *)
Theorem AggregateValuesAtEachVoxel_voxel
    (Function : InputArray -> result dbl) (images : list Image)
    (output aggregate : Image) (nvox vox : nat) :
  AggregateValuesAtEachVoxel Function images output nvox = Ok aggregate ->
  (vox < nvox)%nat ->
  NumberOfVoxels aggregate = nvox /\
  Background aggregate = Background output /\
  if IsForeground output vox
  then Function (Values images vox) = Ok (Get aggregate vox)
  else Get aggregate vox = Get output vox.
Proof.
  unfold AggregateValuesAtEachVoxel. intros H Hvox.
  destruct (mapM _ (seq 0 nvox)) as [data|e] eqn:E; [|discriminate].
  cbn [bind] in H. injection H as <-.
  apply mapM_Ok in E.
  assert (Hlen := Forall2_length E). rewrite length_seq in Hlen.
  split; [symmetry; exact Hlen|]. split; [reflexivity|].
  assert (Hi : (vox < length (seq 0 nvox))%nat)
    by (rewrite length_seq; exact Hvox).
  assert (Hnth := Forall2_nth _ _ _ vox 0%nat NaN E Hi).
  cbv beta in Hnth. rewrite seq_nth in Hnth by exact Hvox.
  cbn [Nat.add] in Hnth. unfold Get at 2 3. cbn [Data].
  destruct (IsForeground output vox); [exact Hnth|].
  injection Hnth as <-. reflexivity.
Qed.

Lemma AggregateValuesAtEachVoxel_voxel_witness :
  let images := [mkImage [Fin 1; NaN] (Some NaN);
                 mkImage [Fin 3; NaN] (Some NaN)] in
  let output := mkImage [zero; milli] (Some milli) in
  let aggregate := mkImage [Fin 3; milli] (Some milli) in
  NumberOfVoxels aggregate = 2%nat /\
  Background aggregate = Background output /\
  if IsForeground output 0
  then AggregationFunction (L := Examples.library) AM_Median 0 64 false
         (Values images 0) = Ok (Get aggregate 0)
  else Get aggregate 0 = Get output 0.
Proof.
  apply (AggregateValuesAtEachVoxel_voxel
           (AggregationFunction (L := Examples.library) AM_Median 0 64 false)
           [mkImage [Fin 1; NaN] (Some NaN); mkImage [Fin 3; NaN] (Some NaN)]
           (mkImage [zero; milli] (Some milli))
           (mkImage [Fin 3; milli] (Some milli)) 2 0).
  - vm_compute. reflexivity.
  - lia.
Defined.

Lemma EntropyIndex_Error `{L : Library} (samples : InputArray) (alpha : Z)
    (e : error) :
  EntropyIndex samples alpha = Error e <-> alpha < 0 /\ e = ERR_InvalidArgument.
Proof.
  unfold EntropyIndex. destruct (Z.ltb_spec alpha 0) as [H | H].
  - split; [intros E; injection E as <-; auto | intros [_ ->]; reflexivity].
  - destruct (Z.of_nat (length samples) =? 0);
      (split; [discriminate | intros [H' _]; lia]).
Qed.

Lemma AggregationFunction_Error_inv `{L : Library}
    (mode : AggregationMode) (alpha bins : Z) (parzen : bool)
    (values : InputArray) (e : error) :
  AggregationFunction mode alpha bins parzen values = Error e ->
  mode = AM_EntropyIndex /\ alpha < 0 /\ e = ERR_InvalidArgument.
Proof.
  destruct mode; cbn [AggregationFunction]; try discriminate.
  - destruct (EntropyIndex values 1) as [r|e'] eqn:E; cbn [bind];
      [discriminate|].
    apply EntropyIndex_Error in E. lia.
  - destruct (EntropyIndex values alpha) as [r|e'] eqn:E; cbn [bind];
      [discriminate|].
    apply EntropyIndex_Error in E. destruct E as [Hneg ->].
    intros H. injection H as <-. auto.
  - destruct (geb _ _); discriminate.
Qed.

(** X12.  The function installed for a mode fails in one case only: mode
    EntropyIndex with a negative [alpha], and then with the invalid-argument
    error.  Theil, which passes 1, never fails, nor does any other mode. *)
Theorem AggregationFunction_fails_only_on_negative_alpha `{L : Library}
    (mode : AggregationMode) (alpha bins : Z) (parzen : bool)
    (values : InputArray) (e : error) :
  AggregationFunction mode alpha bins parzen values = Error e <->
  mode = AM_EntropyIndex /\ alpha < 0 /\ e = ERR_InvalidArgument.
Proof.
  split; [apply AggregationFunction_Error_inv|].
  intros [-> [Hneg ->]]. cbn [AggregationFunction].
  assert (H : EntropyIndex values alpha = Error ERR_InvalidArgument)
    by (apply EntropyIndex_Error; auto).
  rewrite H. reflexivity.
Qed.

(** X13.  With mode EntropyIndex and a negative [alpha] the loop throws the
    invalid-argument error exactly when some voxel of the output is
    foreground; an output that is background throughout is passed over
    without the error. *)
Theorem negative_alpha_found_at_foreground `{L : Library}
    (alpha bins : Z) (parzen : bool) (images : list Image) (output : Image)
    (nvox : nat) :
  alpha < 0 ->
  AggregateValuesAtEachVoxel
    (AggregationFunction AM_EntropyIndex alpha bins parzen) images output nvox
  = Error ERR_InvalidArgument
  <-> exists vox, (vox < nvox)%nat /\ IsForeground output vox = true.
Proof.
  intros Hneg. unfold AggregateValuesAtEachVoxel.
  set (f := fun vox => if IsForeground output vox
                       then AggregationFunction AM_EntropyIndex alpha bins
                                                parzen (Values images vox)
                       else Ok (Get output vox)).
  assert (Hf : forall vox e, f vox = Error e -> e = ERR_InvalidArgument).
  { intros vox e. unfold f. destruct (IsForeground output vox);
      [|discriminate].
    intros H. apply AggregationFunction_Error_inv in H. apply H. }
  split.
  - intros H. destruct (mapM f (seq 0 nvox)) as [data|e] eqn:E;
      [discriminate|].
    apply mapM_Error in E. destruct E as [vox [Hin Hvox]].
    exists vox. split; [apply in_seq in Hin; lia|].
    unfold f in Hvox. destruct (IsForeground output vox);
      [reflexivity | discriminate].
  - intros [vox [Hvox Hfg]].
    assert (E : f vox = Error ERR_InvalidArgument).
    { unfold f. rewrite Hfg. cbn [AggregationFunction].
      assert (H : EntropyIndex (Values images vox) alpha
                  = Error ERR_InvalidArgument)
        by (apply EntropyIndex_Error; auto).
      rewrite H. reflexivity. }
    rewrite (mapM_fails f (seq 0 nvox) ERR_InvalidArgument vox Hf); auto.
    apply in_seq. lia.
Qed.

Lemma negative_alpha_found_at_foreground_witness :
  AggregateValuesAtEachVoxel
    (AggregationFunction (L := Examples.library) AM_EntropyIndex (-1) 64 false)
    [mkImage [Fin 1] (Some zero); mkImage [Fin 2] (Some zero)]
    (mkImage [zero] (Some milli)) 1
  = Error ERR_InvalidArgument
  <-> exists vox, (vox < 1)%nat /\
                  IsForeground (mkImage [zero] (Some milli)) vox = true.
Proof.
  apply (negative_alpha_found_at_foreground (L := Examples.library)
           (-1) 64 false). lia.
Defined.

Lemma max_element_Forall (P : dbl -> Prop) (rest : list dbl) :
  forall x, P x -> Forall P rest -> P (max_element x rest).
Proof.
  unfold max_element. induction rest as [|y rest IH]; simpl; intros x Hx Hr.
  - exact Hx.
  - inversion Hr; subst. apply IH; auto. destruct (x <? y)%D; auto.
Qed.

(** X14.  In Entropy mode a sample array whose values are all one finite
    number gives 0 without a histogram being built, whatever the number of
    bins and the smoothing flag. *)
Theorem Entropy_of_equal_samples `{L : Library}
    (v : Q) (alpha bins : Z) (parzen : bool) (values : InputArray) :
  values <> [] -> all_same v values ->
  AggregationFunction AM_Entropy alpha bins parzen values = Ok zero.
Proof.
  intros Hne Hall. destruct values as [|x rest]; [congruence|].
  inversion Hall; subst. cbn [AggregationFunction MinMaxElement fst snd].
  destruct (same_Fin _ _ (min_element_Forall _ rest x H1 H2)) as [a [-> Ha]].
  destruct (same_Fin _ _ (max_element_Forall _ rest x H1 H2)) as [b [-> Hb]].
  assert (E : geb (Fin a) (Fin b) = true).
  { unfold geb, leb. apply Bool.orb_true_iff. right.
    apply eqb_Fin. rewrite Ha, Hb. reflexivity. }
  rewrite E. reflexivity.
Qed.

Lemma Entropy_of_equal_samples_witness :
  AggregationFunction (L := Examples.library) AM_Entropy 0 64 true
                      [Fin 7; Fin 7; Fin 7] = Ok zero.
Proof.
  apply (Entropy_of_equal_samples (L := Examples.library) 7 0 64 true).
  - discriminate.
  - repeat constructor; reflexivity.
Defined.

(* ========================================================================= *)
(** ** The program as a whole *)
(* ========================================================================= *)

Lemma ReplaceNaNs_shape (output : Image) (nvox : nat) :
  NumberOfVoxels (ReplaceNaNs output nvox) = nvox /\
  Background (ReplaceNaNs output nvox) = Background output.
Proof.
  unfold ReplaceNaNs, NumberOfVoxels. destruct (GetMinMax output).
  cbn [Data Background]. split; [apply length_for_each_voxel | reflexivity].
Qed.

Lemma forallb_sizes (inputs : list Image) (nvox : nat) :
  forallb (fun image => Nat.eqb (NumberOfVoxels image) nvox) inputs = true
  <-> Forall (fun image => NumberOfVoxels image = nvox) inputs.
Proof.
  rewrite forallb_forall, Forall_forall. split; intros H image Hin.
  - apply Nat.eqb_eq, H, Hin.
  - apply Nat.eqb_eq, H, Hin.
Qed.

(** What a run that succeeds went through. *)
Lemma main_Ok `{L : Library}
    (mode : AggregationMode) (normalization : NormalizationMode)
    (alpha bins : Z) (parzen : bool) (padding : dbl) (intersection : bool)
    (inputs : list Image) (final : Image) :
  main mode normalization alpha bins parzen padding intersection inputs
  = Ok final ->
  exists first second rest images output,
    inputs = first :: second :: rest /\
    Forall (fun image => NumberOfVoxels image = NumberOfVoxels first) inputs /\
    PrepareImages mode normalization padding (NumberOfVoxels first) inputs
    = Ok images /\
    AggregateValuesAtEachVoxel
      (AggregationFunction mode alpha bins parzen) images
      (InitializeOutput mode padding intersection (NumberOfVoxels first)
                        images)
      (NumberOfVoxels first) = Ok output /\
    final = ReplaceNaNs output (NumberOfVoxels first).
Proof.
  unfold main. intros H.
  destruct inputs as [|first [|second rest]]; try discriminate.
  destruct (forallb _ _) eqn:Hsizes; [|discriminate].
  apply forallb_sizes in Hsizes. unfold Aggregate in H.
  destruct (PrepareImages _ _ _ _ _) as [images|e] eqn:Hprep;
    [|discriminate].
  cbn [bind] in H.
  destruct (AggregateValuesAtEachVoxel _ _ _ _) as [output|e] eqn:Hagg;
    [|discriminate].
  cbn [bind] in H. injection H as <-.
  exists first, second, rest, images, output. repeat split; assumption.
Qed.

Lemma AggregateValuesAtEachVoxel_shape
    (Function : InputArray -> result dbl) (images : list Image)
    (output aggregate : Image) (nvox : nat) :
  AggregateValuesAtEachVoxel Function images output nvox = Ok aggregate ->
  NumberOfVoxels aggregate = nvox /\
  Background aggregate = Background output.
Proof.
  unfold AggregateValuesAtEachVoxel. intros H.
  destruct (mapM _ (seq 0 nvox)) as [data|e] eqn:E; [|discriminate].
  cbn [bind] in H. injection H as <-. apply mapM_Ok in E.
  assert (Hlen := Forall2_length E). rewrite length_seq in Hlen.
  split; [symmetry; exact Hlen | reflexivity].
Qed.

(** X18.  A run that succeeds was given two images or more, all of the size
    of the image it writes, and the image written carries the background
    value of the mode: NaN for Mean, 1e-3 for every other mode. *)
Theorem main_result_shape `{L : Library}
    (mode : AggregationMode) (normalization : NormalizationMode)
    (alpha bins : Z) (parzen : bool) (padding : dbl) (intersection : bool)
    (inputs : list Image) (final : Image) :
  main mode normalization alpha bins parzen padding intersection inputs
  = Ok final ->
  (2 <= length inputs)%nat /\
  Forall (fun image => NumberOfVoxels image = NumberOfVoxels final) inputs /\
  Background final = Some (OutputBackground mode).
Proof.
  intros H.
  destruct (main_Ok _ _ _ _ _ _ _ _ _ H)
    as [first [second [rest [images [output [-> [Hsz [_ [Hagg ->]]]]]]]]].
  apply AggregateValuesAtEachVoxel_shape in Hagg. destruct Hagg as [_ Hbg].
  destruct (ReplaceNaNs_shape output (NumberOfVoxels first)) as [Hn Hb].
  rewrite Hn, Hb, Hbg. repeat split; auto. simpl. lia.
Qed.

Lemma main_result_shape_witness :
  (2 <= length [Examples.image_of [Fin 1; Fin 0];
               Examples.image_of [Fin 3; Fin 0]])%nat /\
  Forall (fun image =>
            NumberOfVoxels image
            = NumberOfVoxels
                (mkImage [Fin 2; Fin (16768827 # 8388608)] (Some NaN)))
         [Examples.image_of [Fin 1; Fin 0]; Examples.image_of [Fin 3; Fin 0]] /\
  Background (mkImage [Fin 2; Fin (16768827 # 8388608)] (Some NaN))
  = Some (OutputBackground AM_Mean).
Proof.
  apply (main_result_shape (L := Examples.library)
           AM_Mean Normalization_None 0 64 false zero false).
  vm_compute. reflexivity.
Defined.

(** X19.  In Mean mode, where the background value of the output is NaN, the
    image written holds no NaN. *)
Theorem Mean_output_without_NaN `{L : Library}
    (normalization : NormalizationMode)
    (alpha bins : Z) (parzen : bool) (padding : dbl) (intersection : bool)
    (inputs : list Image) (final : Image) (vox : nat) :
  main AM_Mean normalization alpha bins parzen padding intersection inputs
  = Ok final ->
  (vox < NumberOfVoxels final)%nat ->
  IsNaN (Get final vox) = false.
Proof.
  intros H Hvox.
  destruct (main_Ok _ _ _ _ _ _ _ _ _ H)
    as [first [second [rest [images [output [-> [Hsz [_ [Hagg ->]]]]]]]]].
  destruct (ReplaceNaNs_shape output (NumberOfVoxels first)) as [Hn _].
  rewrite Hn in Hvox. apply ReplaceNaNs_not_NaN, Hvox.
Qed.

Lemma Mean_output_without_NaN_witness :
  IsNaN (Get (mkImage [Fin 2; Fin (16768827 # 8388608)] (Some NaN)) 1)
  = false.
Proof.
  apply (Mean_output_without_NaN (L := Examples.library)
           Normalization_None 0 64 false zero false
           [Examples.image_of [Fin 1; Fin 0];
            Examples.image_of [Fin 3; Fin 0]]).
  - vm_compute. reflexivity.
  - unfold NumberOfVoxels. simpl. lia.
Defined.

Lemma AggregateValuesAtEachVoxel_Error `{L : Library}
    (mode : AggregationMode) (alpha bins : Z) (parzen : bool)
    (images : list Image) (output : Image) (nvox : nat) (e : error) :
  AggregateValuesAtEachVoxel (AggregationFunction mode alpha bins parzen)
                             images output nvox = Error e ->
  mode = AM_EntropyIndex /\ alpha < 0 /\ e = ERR_InvalidArgument.
Proof.
  unfold AggregateValuesAtEachVoxel. intros H.
  destruct (mapM _ (seq 0 nvox)) as [data|e'] eqn:E; [discriminate|].
  cbn [bind] in H. injection H as ->.
  apply mapM_Error in E. destruct E as [vox [_ Hvox]].
  destruct (IsForeground output vox); [|discriminate].
  exact (AggregationFunction_Error_inv _ _ _ _ _ _ Hvox).
Qed.

(** X21.  Given two images or more of one size, a run ends in the fatal error
    exactly when the mode is Gini, Theil or EntropyIndex and the minimum over
    the normalised images is infinite; it ends in the invalid-argument error
    only for EntropyIndex with a negative [alpha]; in every other case it
    writes an image. *)
Theorem main_outcomes `{L : Library}
    (mode : AggregationMode) (normalization : NormalizationMode)
    (alpha bins : Z) (parzen : bool) (padding : dbl) (intersection : bool)
    (first second : Image) (rest : list Image) :
  let inputs := first :: second :: rest in
  let nvox := NumberOfVoxels first in
  let infinite :=
    is_dispersion mode
    && IsInf (minimum_over (NormalizeImages normalization padding nvox inputs))
  in
  Forall (fun image => NumberOfVoxels image = nvox) inputs ->
  (main mode normalization alpha bins parzen padding intersection inputs
   = Error ERR_Fatal <-> infinite = true) /\
  (main mode normalization alpha bins parzen padding intersection inputs
   = Error ERR_InvalidArgument -> mode = AM_EntropyIndex /\ alpha < 0) /\
  (infinite = false -> mode <> AM_EntropyIndex \/ 0 <= alpha ->
   exists final,
     main mode normalization alpha bins parzen padding intersection inputs
     = Ok final).
Proof.
  intros inputs nvox infinite Hsizes.
  apply forallb_sizes in Hsizes.
  assert (Hmain :
    main mode normalization alpha bins parzen padding intersection inputs
    = bind (Aggregate mode normalization alpha bins parzen padding
                      intersection nvox inputs)
           (fun output => Ok (ReplaceNaNs output nvox))).
  { unfold main, inputs. fold inputs. fold nvox. rewrite Hsizes.
    reflexivity. }
  rewrite Hmain. unfold Aggregate, PrepareImages, MakePositive.
  unfold infinite.
  destruct (is_dispersion mode); cbn [andb].
  - destruct (IsInf (minimum_over _)) eqn:Hinf.
    + cbn [bind]. repeat split; try discriminate; reflexivity.
    + cbn [bind].
      destruct (AggregateValuesAtEachVoxel _ _ _ _) as [output|e] eqn:E;
        cbn [bind].
      * repeat split; try discriminate. intros _ _. eauto.
      * apply AggregateValuesAtEachVoxel_Error in E.
        destruct E as [Hm [Ha ->]]. repeat split; try discriminate; auto.
        intros _ [H | H]; [contradiction | lia].
  - cbn [bind].
    destruct (AggregateValuesAtEachVoxel _ _ _ _) as [output|e] eqn:E;
      cbn [bind].
    + repeat split; try discriminate. intros _ _. eauto.
    + apply AggregateValuesAtEachVoxel_Error in E.
      destruct E as [Hm [Ha ->]]. repeat split; try discriminate; auto.
      intros _ [H | H]; [contradiction | lia].
Qed.

Lemma main_outcomes_witness :
  let inputs := [Examples.image_of [NInf]; Examples.image_of [Fin 1]] in
  main (L := Examples.library) AM_Gini Normalization_None 0 64 false NaN
       false inputs = Error ERR_Fatal /\
  exists final,
    main (L := Examples.library) AM_StDev Normalization_None 2 64
         false NaN false inputs = Ok final.
Proof.
  split.
  - apply (proj1 (main_outcomes (L := Examples.library)
                    AM_Gini Normalization_None 0 64 false NaN false
                    (Examples.image_of [NInf]) (Examples.image_of [Fin 1]) []
                    ltac:(repeat constructor))).
    reflexivity.
  - apply (proj2 (proj2 (main_outcomes (L := Examples.library)
                    AM_StDev Normalization_None 2 64 false NaN false
                    (Examples.image_of [NInf]) (Examples.image_of [Fin 1]) []
                    ltac:(repeat constructor)))).
    + reflexivity.
    + left. discriminate.
Defined.

(* ========================================================================= *)
(** ** The order of the samples *)
(* ========================================================================= *)

Lemma finite_not_NaN (x : dbl) : finite x -> IsNaN x = false.
Proof. intros [q ->]. reflexivity. Qed.

Lemma number_same (x y : dbl) :
  (x == y)%D -> IsNaN x = false -> IsNaN y = false.
Proof. destruct x, y; simpl; try contradiction; auto. Qed.

Lemma Forall2_same_refl (l : InputArray) : Forall2 same l l.
Proof. induction l; constructor; auto using same_refl. Qed.

Lemma Forall2_same_trans (l l' l'' : InputArray) :
  Forall2 same l l' -> Forall2 same l' l'' -> Forall2 same l l''.
Proof.
  intros H. revert l''. induction H as [|x y l l' Hxy Hl IH]; intros l'' H'.
  - inversion H'; constructor.
  - inversion H'; subst. constructor; eauto using same_trans.
Qed.

Lemma insert_same (x y : dbl) (s s' : InputArray) :
  (x == y)%D -> Forall2 same s s' ->
  Forall2 same (insert x s) (insert y s').
Proof.
  intros Hxy H. induction H as [|a b s s' Hab Hs IH]; cbn [insert].
  - repeat constructor. exact Hxy.
  - rewrite (ltb_same _ _ _ _ Hxy Hab).
    destruct (y <? b)%D; repeat constructor; assumption.
Qed.

Lemma ltb_trans (x y z : dbl) :
  (x <? y)%D = true -> (y <? z)%D = true -> (x <? z)%D = true.
Proof.
  destruct x as [| | |a], y as [| | |b], z as [| | |c]; simpl;
    try congruence.
  intros H1 H2. apply (proj1 (ltb_Fin a b)) in H1.
  apply (proj1 (ltb_Fin b c)) in H2. apply (ltb_Fin a c).
  eapply Qlt_trans; eassumption.
Qed.

(** Two numbers neither of which is below the other are the same. *)
Lemma not_below_each_other (x y : dbl) :
  IsNaN x = false -> IsNaN y = false ->
  (x <? y)%D = false -> (y <? x)%D = false -> (x == y)%D.
Proof.
  intros Hx Hy H1 H2.
  destruct x as [| | |a], y as [| | |b]; try discriminate; try exact I.
  apply (proj1 (ltb_Fin_false a b)) in H1.
  apply (proj1 (ltb_Fin_false b a)) in H2.
  simpl. apply Qle_antisym; assumption.
Qed.

(** Inserting two numbers in either order gives the same array. *)
Lemma insert_insert (x y : dbl) (s : InputArray) :
  IsNaN x = false -> IsNaN y = false ->
  Forall2 same (insert x (insert y s)) (insert y (insert x s)).
Proof.
  intros Hx Hy. induction s as [|z s IH]; cbn [insert].
  - destruct (x <? y)%D eqn:Exy, (y <? x)%D eqn:Eyx;
      try apply Forall2_same_refl.
    + rewrite (ltb_asym _ _ Exy) in Eyx. discriminate.
    + assert (H := not_below_each_other x y Hx Hy Exy Eyx).
      repeat constructor; auto using same_sym.
  - destruct (y <? z)%D eqn:Eyz, (x <? z)%D eqn:Exz; cbn [insert];
      rewrite ?Eyz, ?Exz.
    + destruct (x <? y)%D eqn:Exy, (y <? x)%D eqn:Eyx;
        try apply Forall2_same_refl.
      * rewrite (ltb_asym _ _ Exy) in Eyx. discriminate.
      * assert (H := not_below_each_other x y Hx Hy Exy Eyx).
        constructor; [apply same_sym, H|].
        constructor; [exact H | apply Forall2_same_refl].
    + destruct (x <? y)%D eqn:Exy.
      * rewrite (ltb_trans _ _ _ Exy Eyz) in Exz. discriminate.
      * apply Forall2_same_refl.
    + destruct (y <? x)%D eqn:Eyx.
      * rewrite (ltb_trans _ _ _ Eyx Exz) in Eyz. discriminate.
      * apply Forall2_same_refl.
    + constructor; [apply same_refl | exact IH].
Qed.

Lemma rearranged_numbers (l l' : InputArray) :
  rearranged l l' -> Forall (fun x => IsNaN x = false) l ->
  Forall (fun x => IsNaN x = false) l'.
Proof.
  unfold rearranged.
  induction 1 as [|x y l l' Hxy Hl IH|x y l|l l' l'' H1 IH1 H2 IH2];
    intros Hnum.
  - constructor.
  - inversion Hnum; subst. constructor; eauto using number_same.
  - inversion Hnum as [|? ? Hx Hrest]; subst.
    inversion Hrest; subst. repeat constructor; assumption.
  - auto.
Qed.

Lemma Sort_rearranged (l l' : InputArray) :
  rearranged l l' -> Forall (fun x => IsNaN x = false) l ->
  Forall2 same (Sort l) (Sort l').
Proof.
  unfold rearranged.
  induction 1 as [|x y l l' Hxy Hl IH|x y l|l l' l'' H1 IH1 H2 IH2];
    intros Hnum; cbn [Sort fold_right].
  - constructor.
  - inversion Hnum; subst.
    apply insert_same; [exact Hxy | apply IH; assumption].
  - inversion Hnum as [|? ? Hx Hrest]; subst.
    inversion Hrest as [|? ? Hy _]; subst.
    apply insert_insert; assumption.
  - apply Forall2_same_trans with (Sort l'); [apply IH1, Hnum|].
    apply IH2. exact (rearranged_numbers _ _ H1 Hnum).
Qed.

Lemma Permutation_rearranged (l l' : InputArray) :
  Permutation l l' -> rearranged l l'.
Proof.
  unfold rearranged. induction 1.
  - constructor.
  - apply permA_skip; [apply same_refl | assumption].
  - apply permA_swap.
  - eapply permA_trans; eassumption.
Qed.

(** The smallest element of a finite array does not depend on the order. *)
Lemma MinElement_Permutation `{L : Library} (l l' : InputArray) :
  Permutation l l' -> Forall finite l ->
  (MinElement l == MinElement l')%D.
Proof.
  intros Hperm Hfin.
  assert (Hfin' : Forall finite l').
  { rewrite Forall_forall in *. intros y Hy. apply Hfin.
    apply (Permutation_in _ (Permutation_sym Hperm) Hy). }
  destruct l as [|x rest], l' as [|x' rest'].
  - apply same_refl.
  - apply Permutation_nil in Hperm. discriminate.
  - apply Permutation_sym, Permutation_nil in Hperm. discriminate.
  - cbn [MinElement].
    inversion Hfin as [|? ? Hx Hrest]; subst.
    inversion Hfin' as [|? ? Hx' Hrest']; subst.
    destruct (min_element_lower_bound rest x (finite_not_NaN _ Hx))
      as [_ [Hmx Hmrest]].
    destruct (min_element_lower_bound rest' x' (finite_not_NaN _ Hx'))
      as [_ [Hmx' Hmrest']].
    assert (Hin := min_element_Forall (fun y => In y (x :: rest)) rest x
                     (or_introl eq_refl)
                     (proj2 (Forall_forall _ _) (fun y Hy => or_intror Hy))).
    assert (Hin' := min_element_Forall (fun y => In y (x' :: rest')) rest' x'
                      (or_introl eq_refl)
                      (proj2 (Forall_forall _ _) (fun y Hy => or_intror Hy))).
    assert (Hlow : forall y, In y (x :: rest) ->
                             not_above (min_element x rest) y).
    { intros y [<- | Hy]; [exact Hmx|].
      rewrite Forall_forall in Hmrest. apply Hmrest, Hy. }
    assert (Hlow' : forall y, In y (x' :: rest') ->
                              not_above (min_element x' rest') y).
    { intros y [<- | Hy]; [exact Hmx'|].
      rewrite Forall_forall in Hmrest'. apply Hmrest', Hy. }
    apply not_below_each_other.
    + apply finite_not_NaN, (min_element_Forall finite); assumption.
    + apply finite_not_NaN, (min_element_Forall finite); assumption.
    + apply Hlow'. apply (Permutation_in _ Hperm Hin).
    + apply Hlow. apply (Permutation_in _ (Permutation_sym Hperm) Hin').
Qed.

(** The shift turns finite samples into numbers. *)
Lemma ShiftToPositive_numbers `{L : Library} (samples : InputArray) :
  Forall finite samples ->
  Forall (fun x => IsNaN x = false) (ShiftToPositive samples).
Proof.
  intros Hfin.
  assert (Hnum : Forall (fun x => IsNaN x = false) samples).
  { eapply Forall_impl; [|exact Hfin]. apply finite_not_NaN. }
  unfold ShiftToPositive.
  destruct (MinElement samples <=? zero)%D; [|exact Hnum].
  destruct samples as [|x rest]; [constructor|]. cbn [MinElement].
  inversion Hfin as [|? ? Hx Hrest]; subst.
  destruct (min_element_Forall finite rest x Hx Hrest) as [m ->].
  destruct (cast_micro_finite RealPixel) as [c Hc].
  unfold Transform. rewrite Forall_map.
  eapply Forall_impl; [|exact Hfin]. intros y [q ->].
  unfold sub_in, add_in, InputType. rewrite Hc. cbn [neg exact_add cast].
  destruct (round (format_of RealPixel) (m + - c)) as [| | |u] eqn:E.
  - assert (N := round_not_NaN (format_of RealPixel) (m + - c)).
    rewrite E in N. discriminate.
  - reflexivity.
  - reflexivity.
  - cbn [neg exact_add cast]. apply round_not_NaN.
Qed.

Lemma ShiftToPositive_Permutation `{L : Library} (l l' : InputArray) :
  Permutation l l' -> Forall finite l ->
  rearranged (ShiftToPositive l) (ShiftToPositive l').
Proof.
  intros Hperm Hfin. unfold ShiftToPositive.
  assert (Hm := MinElement_Permutation l l' Hperm Hfin).
  rewrite (leb_same _ _ _ _ Hm (same_refl zero)).
  destruct (MinElement l' <=? zero)%D.
  - unfold Transform, rearranged.
    rewrite (sub_in_same InputType _ _ _ _ Hm (same_refl _)).
    apply Permutation_rearranged, Permutation_map, Hperm.
  - apply Permutation_rearranged, Hperm.
Qed.

Lemma gini_sums_same (n : Z) (l l' : InputArray) :
  Forall2 same l l' ->
  forall (i : Z) (s1 s1' s2 s2' : dbl),
  (s1 == s1')%D -> (s2 == s2')%D ->
  (fst (gini_sums n i l s1 s2) == fst (gini_sums n i l' s1' s2'))%D /\
  (snd (gini_sums n i l s1 s2) == snd (gini_sums n i l' s1' s2'))%D.
Proof.
  induction 1 as [|x x' l l' Hx Hl IH]; intros i s1 s1' s2 s2' H1 H2;
    cbn [gini_sums].
  - split; assumption.
  - rewrite (mul_same _ _ _ _ (same_refl (of_int (2 * i - n + 1))) Hx).
    rewrite (add_same _ _ _ _ H1 (same_refl _)).
    rewrite (add_same _ _ _ _ H2 Hx).
    apply IH; apply same_refl.
Qed.

(** X22.  The Gini coefficient of finite samples does not depend on their
    order: the samples taken in another order give the same number. *)
Theorem GiniCoefficient_order `{L : Library} (samples samples' : InputArray) :
  Permutation samples samples' -> Forall finite samples ->
  (fst (GiniCoefficient samples) == fst (GiniCoefficient samples'))%D.
Proof.
  intros Hperm Hfin. unfold GiniCoefficient.
  rewrite <- (Permutation_length Hperm).
  assert (Hsh := ShiftToPositive_Permutation _ _ Hperm Hfin).
  assert (Hnum := ShiftToPositive_numbers samples Hfin).
  assert (Hsorted := Sort_rearranged _ _ Hsh Hnum).
  destruct (gini_sums_same (Z.of_nat (length samples)) _ _ Hsorted 0
              zero zero zero zero (same_refl _) (same_refl _)) as [H1 H2].
  destruct (gini_sums _ 0 (Sort (ShiftToPositive samples)) zero zero)
    as [sum1 sum2].
  destruct (gini_sums _ 0 (Sort (ShiftToPositive samples')) zero zero)
    as [sum1' sum2'].
  cbn [fst snd] in *.
  rewrite (mul_same _ _ _ _ (same_refl (of_int (Z.of_nat (length samples))))
                    H2).
  rewrite (div_same _ _ _ _ H1 (same_refl _)). apply same_refl.
Qed.

Lemma GiniCoefficient_order_witness :
  (fst (GiniCoefficient (L := Examples.library) [Fin 4; Fin 0; Fin 1])
   == fst (GiniCoefficient (L := Examples.library) [Fin 0; Fin 1; Fin 4]))%D.
Proof.
  apply (GiniCoefficient_order (L := Examples.library)
           [Fin 4; Fin 0; Fin 1] [Fin 0; Fin 1; Fin 4]).
  - apply perm_trans with [Fin 0; Fin 4; Fin 1];
      [apply perm_swap | apply perm_skip, perm_swap].
  - repeat constructor; eexists; reflexivity.
Defined.

(* ========================================================================= *)
(** ** What the shift and the post-pass do guarantee *)
(* ========================================================================= *)

Lemma cast_micro_not_negative (f : floating) :
  exists c, cast (format_of f) micro = Fin c /\ (0 <= c)%Q.
Proof. destruct f; eexists; split; vm_compute; [reflexivity|discriminate|reflexivity|discriminate]. Qed.

Lemma milli_not_negative : exists c, milli = Fin c /\ (0 <= c)%Q.
Proof. eexists; split; vm_compute; [reflexivity|discriminate]. Qed.

(** X24.  [ShiftToPositive] on finite samples of the sample type: every
    sample comes out as a number that is not negative.  (It may come out as
    0: the comment "Shift values to be all positive" promises more than the
    rounded subtraction gives.) *)
Theorem ShiftToPositive_not_negative `{L : Library} (samples : InputArray) :
  Forall finite samples -> Forall (representable InputType) samples ->
  Forall (fun y => IsNaN y = false /\ (y <? zero)%D = false)
         (ShiftToPositive samples).
Proof.
  intros Hfin Hrep. unfold ShiftToPositive.
  destruct samples as [|x rest].
  - cbn [MinElement Transform map].
    destruct (MinElement_empty <=? zero)%D; constructor.
  - cbn [MinElement].
    inversion Hfin as [|? ? Hx Hrest]; subst.
    inversion Hrep as [|? ? Rx Rrest]; subst.
    assert (Nx : IsNaN x = false) by (destruct Hx as [? ->]; reflexivity).
    destruct (min_element_lower_bound rest x Nx) as [_ [Lx Lrest]].
    destruct (min_element_Forall
                (fun y => finite y /\ representable InputType y) rest x)
      as [[q Hq] Rq].
    { split; assumption. }
    { rewrite Forall_forall in *. intros y Hy. split; auto. }
    rewrite Hq in *. cbn [representable] in Rq.
    assert (Lall : Forall (not_above (Fin q)) (x :: rest))
      by (constructor; assumption).
    assert (Nall : Forall (fun y => IsNaN y = false) (x :: rest)).
    { rewrite Forall_forall in *. intros y Hy.
      destruct (Hfin y Hy) as [? ->]. reflexivity. }
    destruct (Fin q <=? zero)%D eqn:Hle.
    + unfold InputType in *.
      destruct (cast_micro_not_negative RealPixel) as [c [Hc Hc0]].
      rewrite Hc.
      assert (Hp : 0 < precision (format_of RealPixel))
        by (destruct RealPixel; reflexivity).
      assert (Ls := less_not_above (format_of RealPixel) (Fin q) c Hp Rq Hc0).
      assert (Ns : IsNaN (sub_in (format_of RealPixel) (Fin q) (Fin c)) = false).
      { unfold sub_in, add_in. rewrite cast_not_NaN. reflexivity. }
      unfold Transform. rewrite Forall_map.
      rewrite Forall_forall in *. intros y Hy.
      destruct (sub_in_not_negative (format_of RealPixel) y _ q
                  (Nall y Hy) Ns (Lall y Hy) Ls) as [P [N _]].
      split; assumption.
    + apply (proj1 (leb_Fin_false q 0)) in Hle.
      rewrite Forall_forall in *. intros y Hy.
      split; [exact (Nall y Hy)|].
      assert (B := Lall y Hy). destruct (Hfin y Hy) as [v ->].
      apply (proj1 (ltb_Fin_false v q)) in B.
      apply (ltb_Fin_false v 0). lra.
Qed.

Lemma ShiftToPositive_not_negative_witness :
  Forall (fun y => IsNaN y = false /\ (y <? zero)%D = false)
         (ShiftToPositive (L := Examples.library)
            [Fin (- (3 # 1)); Fin (1 # 2); Fin (- (3 # 1))]).
Proof.
  apply (ShiftToPositive_not_negative (L := Examples.library)).
  - repeat constructor; eexists; reflexivity.
  - repeat constructor.
    + exists (-3), 0. vm_compute. repeat split; discriminate.
    + exists 1, (-1). vm_compute. repeat split; discriminate.
    + exists (-3), 0. vm_compute. repeat split; discriminate.
Defined.

(** X25.  The post-pass on an output of [OutputType] values: what it puts
    in the place of a NaN is not above any number at a foreground voxel of
    the output.  (It need not be below: [omin - 1e-3] stored as a [float]
    can be [omin] again.) *)
Theorem replacement_not_above_the_numbers
    (output : Image) (nvox vox vox' : nat) :
  typed OutputType output ->
  (vox < nvox)%nat -> (vox' < nvox)%nat ->
  IsNaN (Get output vox) = true ->
  IsForeground output vox' = true ->
  IsNaN (Get output vox') = false ->
  (Get (ReplaceNaNs output nvox) vox'
   <? Get (ReplaceNaNs output nvox) vox)%D = false.
Proof.
  intros Hty Hvox Hvox' Hnan Hfg Hnum.
  rewrite (ReplaceNaNs_voxel _ _ _ Hvox), (ReplaceNaNs_voxel _ _ _ Hvox').
  rewrite Hnan, Hnum.
  set (omin := fst (GetMinMax output)).
  assert (Rmin : representable OutputType omin)
    by (apply GetMinMax_representable, Hty).
  assert (Nmin : IsNaN omin = false) by apply GetMinMax_not_NaN.
  assert (Lmin : not_above omin (Get output vox'))
    by (apply GetMinMax_lower_bound, Hfg).
  destruct milli_not_negative as [c [Hc Hc0]]. rewrite Hc.
  assert (Ls := less_not_above binary64 omin c eq_refl
                  (binary32_in_binary64 omin Rmin) Hc0).
  change (sub_in binary64 omin (Fin c)) with (omin - Fin c)%D in Ls.
  assert (C := cast_mono OutputType eq_refl _ _ Ls).
  assert (E := cast_exact OutputType eq_refl omin Rmin).
  unfold not_above in *.
  rewrite (ltb_same _ _ _ _ E (same_refl _)) in C.
  apply (not_above_trans _ omin _ Nmin C Lmin).
Qed.

Lemma replacement_not_above_the_numbers_witness :
  let output := mkImage [Fin (40000 # 1); NaN] (Some (cast OutputType milli)) in
  (Get (ReplaceNaNs output 2) 0 <? Get (ReplaceNaNs output 2) 1)%D = false /\
  Get (ReplaceNaNs output 2) 1 = Fin (40000 # 1).
Proof.
  split.
  - apply (replacement_not_above_the_numbers
             (mkImage [Fin (40000 # 1); NaN] (Some (cast OutputType milli)))
             2 1 0).
    + repeat constructor. exists 40000, 0. vm_compute. repeat split; discriminate.
    + lia.
    + lia.
    + reflexivity.
    + vm_compute. reflexivity.
    + reflexivity.
  - vm_compute. reflexivity.
Defined.

(* ========================================================================= *)
(** ** Equal integer samples *)
(* ========================================================================= *)

Lemma of_int_repeat (z : Z) (n : nat) :
  map of_int (repeat z n) = repeat (of_int z) n.
Proof.
  induction n as [|n IH]; [reflexivity|]. cbn [repeat map]. rewrite IH.
  reflexivity.
Qed.

Lemma insert_Z_repeat (z : Z) (n : nat) :
  insert_Z z (repeat z n) = repeat z (S n).
Proof.
  induction n as [|n IH]; [reflexivity|].
  cbn [repeat insert_Z]. rewrite Z.ltb_irrefl. f_equal. exact IH.
Qed.

Lemma sort_Z_repeat (z : Z) (n : nat) : sort_Z (repeat z n) = repeat z n.
Proof.
  induction n as [|n IH]; [reflexivity|].
  cbn [repeat]. unfold sort_Z in *. cbn [fold_right]. rewrite IH.
  apply insert_Z_repeat.
Qed.

Lemma sum_Z_repeat (z : Z) (n : nat) : sum_Z (repeat z n) = Z.of_nat n * z.
Proof.
  induction n as [|n IH]; [reflexivity|].
  cbn [repeat]. unfold sum_Z in *. cbn [fold_right]. rewrite IH. lia.
Qed.

Lemma rank_sum_Z_repeat (z n : Z) (k : nat) :
  forall i, rank_sum_Z n i (repeat z k)
            = z * Z.of_nat k * (2 * i + Z.of_nat k - n).
Proof.
  induction k as [|k IH]; intros i.
  - simpl. lia.
  - cbn [repeat rank_sum_Z]. rewrite IH. nia.
Qed.

(** X26.  [GiniCoefficient] of [n] samples that all hold the same positive
    integer [z], with [n * n * z] within 53 bits: no shift is made, the sums
    are formed without rounding, and the result is 0. *)
Theorem GiniCoefficient_equal_integers `{L : Library} (z : Z) (n : nat) :
  0 < z -> (0 < n)%nat -> Z.of_nat n * (Z.of_nat n * z) <= 2 ^ 53 ->
  fst (GiniCoefficient (repeat (of_int z) n)) = zero.
Proof.
  intros Hz Hn Hbound.
  rewrite <- (of_int_repeat z n).
  rewrite (GiniCoefficient_of_int (repeat z n)).
  - rewrite sort_Z_repeat, rank_sum_Z_repeat, repeat_length, sum_Z_repeat.
    replace (2 * 0 + Z.of_nat n - Z.of_nat n) with 0 by lia.
    rewrite Z.mul_0_r.
    apply (round_comp binary64 _ 0). unfold Qeq. simpl. reflexivity.
  - destruct n; [lia | discriminate].
  - apply Forall_forall. intros w Hw. apply repeat_spec in Hw. lia.
  - rewrite repeat_length, sum_Z_repeat. exact Hbound.
Qed.

Lemma GiniCoefficient_equal_integers_witness :
  fst (GiniCoefficient (L := Examples.library) (repeat (of_int 7) 4)) = zero.
Proof.
  apply (GiniCoefficient_equal_integers (L := Examples.library) 7 4).
  - lia.
  - lia.
  - vm_compute. discriminate.
Defined.
